(** * Markdown table assistant: generator and formatter

    A shallow embedding of [generateMarkdownTable] and [formatMarkdownTable]
    from [src/extension.js], and of the two editor commands that call them,
    with their properties.

    JavaScript strings are sequences of UTF-16 code units; a code unit is a
    number [N] and a string a list of them.  Built-in methods ([trim],
    [split], [join], [repeat], [parseInt], [RegExp.prototype.test]) are
    embedded by their ECMAScript behaviour on the arguments the program gives
    them.  Numbers are exact integers [Z]: every count and length the two
    functions compute is an integer, and JavaScript's Number arithmetic is
    exact on integers below 2^53. *)

From Stdlib Require Import List ZArith NArith Lia Bool Arith.
From Stdlib Require Ascii String.
Import ListNotations.
Import String.StringSyntax.

(* ================================================================== *)
(** ** Strings as code-unit sequences *)

Module Js.

Definition char := N.
Definition str := list char.

(** A literal: each byte of the Rocq string is one code unit. *)
Definition lit (s : String.string) : str :=
  map Ascii.N_of_ascii (String.list_ascii_of_string s).
Arguments lit s%_string_scope.

Definition nl : char := 10%N.      (* '\n' *)
Definition pipe : char := 124%N.   (* '|' *)
Definition space : char := 32%N.   (* ' ' *)
Definition colon : char := 58%N.   (* ':' *)
Definition dash : char := 45%N.    (* '-' *)

Definition str_eqb (a b : str) : bool :=
  if list_eq_dec N.eq_dec a b then true else false.

(** ECMAScript WhiteSpace and LineTerminator code points, the characters
    [String.prototype.trim] removes and [parseInt] skips. *)
Definition isWhiteSpace (c : char) : bool :=
  ((c =? 9) || (c =? 10) || (c =? 11) || (c =? 12) || (c =? 13) ||
   (c =? 32) || (c =? 160) || (c =? 5760) ||
   ((8192 <=? c) && (c <=? 8202)) ||
   (c =? 8232) || (c =? 8233) || (c =? 8239) || (c =? 8287) ||
   (c =? 12288) || (c =? 65279))%N.

Fixpoint trimStart (s : str) : str :=
  match s with
  | [] => []
  | c :: s' => if isWhiteSpace c then trimStart s' else s
  end.

Definition trimEnd (s : str) : str := rev (trimStart (rev s)).

(** [s.trim()] *)
Definition trim (s : str) : str := trimEnd (trimStart s).

(** [s.split(sep)] for a one-character separator: the pieces between the
    occurrences of [sep]; always at least one piece. *)
Fixpoint split (sep : char) (s : str) : list str :=
  match s with
  | [] => [[]]
  | c :: s' =>
      if (c =? sep)%N then [] :: split sep s'
      else match split sep s' with
           | [] => [[c]]
           | w :: ws => (c :: w) :: ws
           end
  end.

(** [a.join(sep)] *)
Fixpoint join (sep : str) (l : list str) : str :=
  match l with
  | [] => []
  | [x] => x
  | x :: rest => x ++ sep ++ join sep rest
  end.

(** Completion of an evaluation: a value, or a thrown exception. *)
Inductive exn := RangeError.

Inductive completion (A : Type) : Type :=
| Normal (a : A)
| Throw (e : exn).
Arguments Normal {A} a.
Arguments Throw {A} e.

Definition bind {A B} (m : completion A) (k : A -> completion B) : completion B :=
  match m with
  | Normal a => k a
  | Throw e => Throw e
  end.

Notation "x <- m ;; k" := (bind m (fun x => k))
  (at level 61, m at next level, right associativity).

(** [a.map((x, i) => f(x, i))] where the callback may throw: the elements
    are visited in order and the first exception propagates. *)
Fixpoint mapi_from {A B} (i : nat) (f : A -> nat -> completion B) (l : list A)
  : completion (list B) :=
  match l with
  | [] => Normal []
  | x :: rest =>
      y <- f x i ;;
      ys <- mapi_from (S i) f rest ;;
      Normal (y :: ys)
  end.

Definition mapi {A B} (f : A -> nat -> completion B) (l : list A) :=
  mapi_from 0 f l.

(** [s.repeat(count)]: a negative count throws a RangeError. *)
Definition repeat_ (s : str) (count : Z) : completion str :=
  if (count <? 0)%Z then Throw RangeError
  else Normal (concat (repeat s (Z.to_nat count))).

(** [s.length] *)
Definition len (s : str) : Z := Z.of_nat (length s).

End Js.

Import Js.

(* ================================================================== *)
(** ** Regular expressions of [formatMarkdownTable]

    The three patterns are anchored at both ends ([^...$]) and are a
    sequence of literal characters, each taken once or one-or-more times
    ([c+]).  [test] decides whether the whole string matches. *)

Inductive quant := Once | OneOrMore.

Definition regex := list (char * quant).

Fixpoint test (re : regex) (s : str) {struct s} : bool :=
  match s with
  | [] => match re with [] => true | _ :: _ => false end
  | x :: s' =>
      match re with
      | [] => false
      | (c, Once) :: re' => (x =? c)%N && test re' s'
      | (c, OneOrMore) :: re' =>
          (x =? c)%N && (test ((c, OneOrMore) :: re') s' || test re' s')
      end
  end.

(** [/^:-+:$/] *)
Definition re_center : regex := [(colon, Once); (dash, OneOrMore); (colon, Once)].
(** [/^:-+$/] *)
Definition re_left : regex := [(colon, Once); (dash, OneOrMore)].
(** [/^-+:$/] *)
Definition re_right : regex := [(dash, OneOrMore); (colon, Once)].

(* ================================================================== *)
(** ** formatMarkdownTable *)

(** The strings ['left'], ['center'], ['right'] of the [alignments] array. *)
Inductive alignment := Left | Center | Right.

(** The callback of [cleanedRows[1].map], lines 168-173. *)
Definition alignmentOf (cell : str) : alignment :=
  if test re_center cell then Center
  else if test re_left cell then Left
  else if test re_right cell then Right
  else Left.

(** [line.trim().split('|').map(cell => cell.trim())], line 150. *)
Definition parseRow (line : str) : list str :=
  map trim (split pipe (trim line)).

(** [if (row[0] === '') row.shift()], line 154. *)
Definition shiftEmpty (row : list str) : list str :=
  match row with
  | [] :: rest => rest
  | _ => row
  end.

(** [if (row[row.length - 1] === '') row.pop()], line 155; on an empty
    array [row[-1]] is [undefined] and nothing is popped. *)
Fixpoint popEmpty (row : list str) : list str :=
  match row with
  | [] => []
  | [c] => match c with [] => [] | _ :: _ => [c] end
  | c :: rest => c :: popEmpty rest
  end.

Definition cleanRow (row : list str) : list str := popEmpty (shiftEmpty row).

(** [lines], line 146. *)
Definition linesOf (markdown : str) : list str := split nl (trim markdown).

(** [cleanedRows], lines 150-157. *)
Definition cleanedRowsOf (lines : list str) : list (list str) :=
  map cleanRow (map parseRow lines).

(** [cleanedRows[0].length], line 160. *)
Definition colCountOf (cleanedRows : list (list str)) : nat :=
  length (nth 0 cleanedRows []).

(** [cleanedRows.every(row => row.length === colCount)], line 161. *)
Definition isValid (cleanedRows : list (list str)) : bool :=
  forallb (fun row => length row =? colCountOf cleanedRows) cleanedRows.

(** [alignments], lines 168-173. *)
Definition alignmentsOf (cleanedRows : list (list str)) : list alignment :=
  map alignmentOf (nth 1 cleanedRows []).

(** [Math.max(...xs)].  On no argument JavaScript gives [-Infinity]; the
    program spreads one number per row and there are at least two rows. *)
Definition Math_max (xs : list Z) : Z :=
  match xs with
  | [] => 0
  | x :: rest => fold_left Z.max rest x
  end.

(** [colWidths], lines 176-180. *)
Definition colWidthsOf (cleanedRows : list (list str)) : list Z :=
  map (fun col => Math_max (map (fun row => len (nth col row [])) cleanedRows))
      (seq 0 (colCountOf cleanedRows)).

(** [padCell], lines 183-188; [Math.floor(space / 2)] is [space / 2] on [Z]. *)
Definition padCell (text : str) (width : Z) : completion str :=
  let space_ := (width - len text)%Z in
  let left := (space_ / 2)%Z in
  let right := (space_ - left)%Z in
  l <- repeat_ [space] left ;;
  r <- repeat_ [space] right ;;
  Normal (l ++ text ++ r).

(** The alignment-row branch, lines 195-201. *)
Definition sepCell (a : alignment) (len : Z) : completion str :=
  let left := match a with
              | Right => (len - 1)%Z
              | Center => ((len - 1) / 2)%Z
              | Left => 0%Z
              end in
  let right := (len - 1 - left)%Z in
  l <- repeat_ [dash] left ;;
  r <- repeat_ [dash] right ;;
  Normal (match a with Left => [colon] | _ => [dash] end ++ l ++
          match a with Right => [colon] | _ => [dash] end ++ r).

(** The callback of [row.map((cell, i) => ...)], lines 192-205. *)
Definition formatCell (alignments : list alignment) (colWidths : list Z)
    (rowIndex : nat) (cell : str) (i : nat) : completion str :=
  if rowIndex =? 1
  then sepCell (nth i alignments Left) (nth i colWidths 0%Z)
  else padCell cell (nth i colWidths 0%Z).

(** The callback of [cleanedRows.map((row, rowIndex) => ...)], lines 191-206. *)
Definition formatRow (alignments : list alignment) (colWidths : list Z)
    (row : list str) (rowIndex : nat) : completion str :=
  cells <- mapi (formatCell alignments colWidths rowIndex) row ;;
  Normal (lit "| " ++ join (lit " | ") cells ++ lit " |").

(** What a call leaves behind: the returned string and the lines written
    with [console.log]. *)
Record result := mkResult { returned : str; console : list str }.

(** The message of line 163; its first two code units are U+26A0 U+FE0F. *)
Definition diagnostic : str :=
  9888%N :: 65039%N ::
  lit " Please only select markdown table: inconsistent column counts.".

Definition formatMarkdownTable (markdown : str) : completion result :=
  let lines := linesOf markdown in
  if length lines <? 2 then Normal (mkResult markdown [])
  else
    let cleanedRows := cleanedRowsOf lines in
    if negb (isValid cleanedRows) then Normal (mkResult markdown [diagnostic])
    else
      let alignments := alignmentsOf cleanedRows in
      let colWidths := colWidthsOf cleanedRows in
      formattedRows <- mapi (formatRow alignments colWidths) cleanedRows ;;
      Normal (mkResult (join [nl] formattedRows) []).

(* ================================================================== *)
(** ** generateMarkdownTable *)

(** Value of a character as a digit, for radices up to 36. *)
Definition digitValue (c : char) : option Z :=
  if ((48 <=? c) && (c <=? 57))%N then Some (Z.of_N c - 48)%Z
  else if ((97 <=? c) && (c <=? 122))%N then Some (Z.of_N c - 87)%Z
  else if ((65 <=? c) && (c <=? 90))%N then Some (Z.of_N c - 55)%Z
  else None.

(** Value of the longest prefix of [s] made of digits of the radix; [acc]
    is the value read so far, [None] when no digit has been read. *)
Fixpoint digits (radix : Z) (s : str) (acc : option Z) : option Z :=
  match s with
  | [] => acc
  | c :: s' =>
      match digitValue c with
      | Some d =>
          if (d <? radix)%Z
          then digits radix s'
                 (Some (match acc with None => d | Some a => a * radix + d end)%Z)
          else acc
      | None => acc
      end
  end.

(** [parseInt(s)] with no radix argument; [None] is [NaN].  Leading white
    space is skipped, then an optional sign, then an optional [0x]/[0X]
    (radix 16, otherwise 10), then the longest run of digits. *)
Definition parseInt (s : str) : option Z :=
  let s1 := trimStart s in
  let '(sign, s2) :=
    match s1 with
    | c :: r => if (c =? 45)%N then ((-1)%Z, r)
                else if (c =? 43)%N then (1%Z, r)
                else (1%Z, s1)
    | [] => (1%Z, s1)
    end in
  let '(radix, s3) :=
    match s2 with
    | c0 :: x :: r =>
        if ((c0 =? 48) && ((x =? 120) || (x =? 88)))%N then (16%Z, r) else (10%Z, s2)
    | _ => (10%Z, s2)
    end in
  option_map (Z.mul sign) (digits radix s3 None).

(** [v || d] on the result of [parseInt]: [NaN] and [0] are falsy. *)
Definition orDefault (v : option Z) (d : Z) : Z :=
  match v with
  | None => d
  | Some 0%Z => d
  | Some z => z
  end.

(** An argument of [generateMarkdownTable]: [undefined] ([None]) or the
    string the input box returned. *)
Definition arg := option str.

(** [parseInt(rows)] after the default parameter [rows = 2] was applied;
    [parseInt(2)] is [2]. *)
Definition parseIntArg (a : arg) : option Z :=
  match a with
  | None => Some 2%Z
  | Some s => parseInt s
  end.

(** [Math.max(1, parseInt(rows) || 2)], lines 59-60. *)
Definition normalizeCount (a : arg) : Z :=
  Z.max 1 (orDefault (parseIntArg a) 2).

(** [s.toLowerCase()] on the letters A-Z.  Other characters are left as
    they are: no character outside A-Z lower-cases to a string that occurs
    in ['left'], ['right'] or ['center'], so the [switch] below takes the
    same branch. *)
Definition toLowerCase (s : str) : str :=
  map (fun c => if ((65 <=? c) && (c <=? 90))%N then (c + 32)%N else c) s.

(** The [switch] of lines 64-75, after the default parameter
    [alignment = 'center']. *)
Definition alignCharOf (alignment : arg) : str :=
  let a := match alignment with None => lit "center" | Some s => s end in
  let l := toLowerCase a in
  if str_eqb l (lit "left") then lit ":---"
  else if str_eqb l (lit "right") then lit "---:"
  else lit ":---:".

(** [for (let i = lo; i < hi; i++) table = body(table)] for a body that
    does not read [i]. *)
Definition forLoop (lo hi : Z) (body : str -> str) (table : str) : str :=
  Nat.iter (Z.to_nat (hi - lo)) body table.

Definition generateMarkdownTable (rows cols alignment : arg) : str :=
  let rows := normalizeCount rows in
  let cols := normalizeCount cols in
  let alignChar := alignCharOf alignment in
  let table := [] in
  (* header row *)
  let table := table ++ lit "|" in
  let table := forLoop 0 cols (fun table => table ++ lit " |") table in
  let table := table ++ [nl] in
  (* alignment row *)
  let table := table ++ lit "|" in
  let table :=
    forLoop 0 cols (fun table => table ++ lit " " ++ alignChar ++ lit " |") table in
  let table := table ++ [nl] in
  (* data rows *)
  let table :=
    forLoop 1 rows
      (fun table =>
         let table := table ++ lit "|" in
         let table := forLoop 0 cols (fun table => table ++ lit " |") table in
         table ++ [nl])
      table in
  table.

(* ================================================================== *)
(** ** The two editor commands

    [format_table_command] and [generate_table_command] talk to the editor
    through the [vscode] API.  A command is a tree of API calls: each call is
    an [event] whose answer, given by the host, selects the continuation.
    [await] and [.then] sequence the calls; the tree records the order in
    which the host sees them. *)

(** The active text editor, an opaque handle. *)
Definition editor := nat.

Inductive event : Type -> Type :=
| ActiveTextEditor : event (option editor)
    (* [vscode.window.activeTextEditor]; [None] is [undefined] *)
| ShowInformationMessage (msg : str) : event unit
| ShowErrorMessage (msg : str) : event unit
| ShowInputBox (prompt placeHolder : str) : event arg
    (* the awaited value: the text typed, or [undefined] when dismissed *)
| GetSelectedText (e : editor) : event str
    (* [editor.document.getText(editor.selection)] *)
| ConsoleLog (msg : str) : event unit
| EditReplaceSelection (e : editor) (text : str) : event bool
    (* [editor.edit(b => b.replace(selection, text))]; the answer is the
       value the returned promise resolves to *)
| EditInsertAtCursor (e : editor) (text : str) : event bool.
    (* [editor.edit(b => b.insert(editor.selection.active, text))] *)

Inductive prog (A : Type) : Type :=
| Ret (a : A)
| Raise (e : exn)
| Vis {X : Type} (ev : event X) (k : X -> prog A).
Arguments Ret {A} a.
Arguments Raise {A} e.
Arguments Vis {A X} ev k.

(** [console.log] of each line a call of [formatMarkdownTable] wrote, then
    the rest of the program. *)
Fixpoint logAll {A} (msgs : list str) (rest : prog A) : prog A :=
  match msgs with
  | [] => rest
  | m :: ms => Vis (ConsoleLog m) (fun _ => logAll ms rest)
  end.

(** Lines 106-134.  [!text] holds of the empty string only. *)
Definition format_table_command : prog unit :=
  Vis ActiveTextEditor (fun ed =>
    match ed with
    | None => Vis (ShowInformationMessage (lit "No editor")) (fun _ => Ret tt)
    | Some e =>
        Vis (GetSelectedText e) (fun text =>
          match text with
          | [] =>
              Vis (ShowInformationMessage (lit "No selected text"))
                  (fun _ => Ret tt)
          | _ :: _ =>
              match formatMarkdownTable text with
              | Throw x => Raise x
              | Normal r =>
                  logAll (console r)
                    (Vis (EditReplaceSelection e (returned r)) (fun success =>
                       if success
                       then Vis (ShowInformationMessage (lit "Formatted."))
                                (fun _ => Ret tt)
                       else Vis (ShowErrorMessage (lit "Format failed"))
                                (fun _ => Ret tt)))
              end
          end)
    end).

(** Lines 20-48. *)
Definition generate_table_command : prog unit :=
  Vis ActiveTextEditor (fun ed =>
    match ed with
    | None => Vis (ShowInformationMessage (lit "No editor")) (fun _ => Ret tt)
    | Some e =>
        Vis (ShowInputBox (lit "row number") (lit "2")) (fun rowsInput =>
        Vis (ShowInputBox (lit "column number") (lit "2")) (fun colsInput =>
        Vis (ShowInputBox (lit "alignment: l r c") (lit "c")) (fun alignInput =>
          let table := generateMarkdownTable rowsInput colsInput alignInput in
          Vis (EditInsertAtCursor e table) (fun _ => Ret tt))))
    end).

(** A host answers every call.  A command makes each of its calls at most
    once in a run, so a function of the call describes any host. *)
Definition host := forall X : Type, event X -> X.

(** A call the host has seen, with the answer it gave. *)
Inductive call : Type :=
| Call {X : Type} (ev : event X) (answer : X).

(** Running a command against a host: the calls in order, and how the
    command ends. *)
Fixpoint run {A} (h : host) (p : prog A) : list call * completion A :=
  match p with
  | Ret a => ([], Normal a)
  | Raise e => ([], Throw e)
  | Vis ev k =>
      let x := h _ ev in
      let '(t, c) := run h (k x) in
      (Call ev x :: t, c)
  end.

(** The document edits among the calls the host has seen. *)
Inductive edit : Type :=
| Replaced (e : editor) (text : str)
| Inserted (e : editor) (text : str).

Definition editOf (c : call) : option edit :=
  match c with
  | Call ev _ =>
      match ev with
      | EditReplaceSelection e text => Some (Replaced e text)
      | EditInsertAtCursor e text => Some (Inserted e text)
      | _ => None
      end
  end.

(** The messages shown to the user among the calls. *)
Definition messageOf (c : call) : option str :=
  match c with
  | Call ev _ =>
      match ev with
      | ShowInformationMessage m => Some m
      | ShowErrorMessage m => Some m
      | _ => None
      end
  end.

(** The lines written to the console among the calls. *)
Definition logOf (c : call) : option str :=
  match c with
  | Call ev _ =>
      match ev with
      | ConsoleLog m => Some m
      | _ => None
      end
  end.

(** The input boxes opened among the calls, by their prompts. *)
Definition promptOf (c : call) : option str :=
  match c with
  | Call ev _ =>
      match ev with
      | ShowInputBox prompt _ => Some prompt
      | _ => None
      end
  end.

(** The calls of one kind, in order. *)
Fixpoint pick {A} (f : call -> option A) (t : list call) : list A :=
  match t with
  | [] => []
  | c :: rest =>
      match f c with
      | Some a => a :: pick f rest
      | None => pick f rest
      end
  end.

Definition editsOf (t : list call) : list edit := pick editOf t.
Definition messagesOf (t : list call) : list str := pick messageOf t.
Definition logsOf (t : list call) : list str := pick logOf t.
Definition promptsOf (t : list call) : list str := pick promptOf t.

(** A host with an active editor whose selection is [selection], that
    dismisses every input box and answers every edit with [applied]. *)
Definition hostWith (selection : str) (applied : bool) : host :=
  fun X ev =>
    match ev in event X return X with
    | ActiveTextEditor => Some 0
    | ShowInformationMessage _ => tt
    | ShowErrorMessage _ => tt
    | ShowInputBox _ _ => None
    | GetSelectedText _ => selection
    | ConsoleLog _ => tt
    | EditReplaceSelection _ _ => applied
    | EditInsertAtCursor _ _ => applied
    end.

(** The pipe-delimited segments of a rendered line [|s1|...|sn|]: the
    pieces between one pipe and the next. *)
Definition segments (line : str) : list str :=
  removelast (tl (split pipe line)).

(** A table input that reaches the rendering step: at least two lines, and
    every cleaned row as long as row 0. *)
Definition validTable (markdown : str) : Prop :=
  2 <= length (linesOf markdown) /\
  isValid (cleanedRowsOf (linesOf markdown)) = true.

(** The languages of the three patterns, in the words of the
    specification: a colon, one or more dashes, a colon; a colon and one or
    more dashes; one or more dashes and a colon. *)
Definition isCenterMarker (cell : str) : Prop :=
  exists n, 1 <= n /\ cell = colon :: repeat dash n ++ [colon].

Definition isLeftMarker (cell : str) : Prop :=
  exists n, 1 <= n /\ cell = colon :: repeat dash n.

Definition isRightMarker (cell : str) : Prop :=
  exists n, 1 <= n /\ cell = repeat dash n ++ [colon].

(** A decimal numeral: a non-empty run of the characters [0]-[9]; and the
    number it denotes. *)
Definition isDecimal (s : str) : Prop :=
  s <> [] /\ Forall (fun c => (48 <= c <= 57)%N) s.

Definition decimalValue (s : str) : Z :=
  fold_left (fun a c => (a * 10 + (Z.of_N c - 48))%Z) s 0%Z.

(** Only white-space characters. *)
Definition allWhite (s : str) : Prop :=
  Forall (fun c => isWhiteSpace c = true) s.

(** A string with no white space at either end. *)
Definition trimmed (s : str) : Prop :=
  trimStart s = s /\ trimStart (rev s) = rev s.

(** A cell between its two framing spaces. *)
Definition wrap (c : str) : str := space :: c ++ [space].

(** A row of [cols] cells whose segments are all [seg]. *)
Definition rowOf (seg : str) (cols : nat) : str :=
  pipe :: concat (repeat (seg ++ [pipe]) cols).

(** A string between two pipes. *)
Definition framed (s : str) : Prop := exists m, s = pipe :: m ++ [pipe].

(** The separator cell [formatMarkdownTable] builds for a column of width
    [n >= 1]: a colon and [n] dashes, [n] dashes and a colon, or [n + 1]
    dashes. *)
Definition separatorMarker (a : alignment) (n : nat) : str :=
  match a with
  | Left => colon :: repeat dash n
  | Right => repeat dash n ++ [colon]
  | Center => repeat dash (S n)
  end.

(** The alignment inferred from [separatorMarker a n]. *)
Definition reinferred (a : alignment) : alignment :=
  match a with
  | Center => Left
  | _ => a
  end.

(** The alignment a keyword given to [generateMarkdownTable] asks for:
    left, right, and center for anything else or no keyword. *)
Definition requestedAlignment (keyword : arg) : alignment :=
  let a := match keyword with None => lit "center" | Some s => s end in
  if str_eqb (toLowerCase a) (lit "left") then Left
  else if str_eqb (toLowerCase a) (lit "right") then Right
  else Center.

(** A text with every line break written as carriage return and line
    feed. *)
Definition toCRLF (s : str) : str :=
  flat_map (fun c => if (c =? nl)%N then [13%N; nl] else [c]) s.

(** Lines with a carriage return at the end of each but the last. *)
Fixpoint crLines (l : list str) : list str :=
  match l with
  | [] => []
  | [x] => [x]
  | x :: rest => (x ++ [13%N]) :: crLines rest
  end.

(** Sum of a list of numbers. *)
Definition sumZ (l : list Z) : Z := fold_right Z.add 0%Z l.

(* ================================================================== *)
(** ** Inputs used as examples *)

(** The passthrough example of the specification: a header of two cells, a
    separator of one, a data row of three. *)
Definition inconsistentExample : str :=
  lit "| a | b |
|---|
| 1 | 2 | 3 |".

(** Column 0 centered, column 1 right-aligned. *)
Definition smallTable : str :=
  lit "|a|bb|
|:-:|--:|
|1|22|".

(** One column of width 1. *)
Definition narrowTable : str :=
  lit "|a|
|-|".

(** One column whose cells are all empty. *)
Definition emptyColumnTable : str :=
  lit "||
||".

(** Two columns, the second with only empty cells. *)
Definition emptySecondColumn : str :=
  lit "|a||
|-||
|1||".

(** What [formatMarkdownTable] returns on [smallTable]. *)
Definition smallTableFormatted : str :=
  lit "|  a  | bb  |
| ---- | ---: |
|  1  | 22  |".

(* ================================================================== *)
(** ** Facts about the string primitives *)

Section SplitJoin.
Variable sep : char.

Lemma split_not_nil (s : str) : split sep s <> [].
Proof.
  destruct s as [|c s]; simpl; [discriminate|].
  destruct (c =? sep)%N; [discriminate|].
  destruct (split sep s); discriminate.
Qed.

Lemma split_length_pos (s : str) : 1 <= length (split sep s).
Proof.
  pose proof (split_not_nil s) as H.
  destruct (split sep s); [congruence | simpl; lia].
Qed.

Lemma split_sep_free (s : str) :
  Forall (fun w => ~ In sep w) (split sep s).
Proof.
  induction s as [|c s IH]; simpl.
  - constructor; auto.
  - destruct (N.eqb_spec c sep) as [->|Hne].
    + constructor; auto.
    + destruct (split sep s) as [|w ws]; inversion IH; subst;
        constructor; auto; simpl; intuition congruence.
Qed.

Lemma split_free (s : str) : ~ In sep s -> split sep s = [s].
Proof.
  induction s as [|c s IH]; simpl; intros H; [reflexivity|].
  destruct (N.eqb_spec c sep) as [->|Hne]; [tauto|].
  rewrite IH by tauto. reflexivity.
Qed.

Lemma split_app (a b : str) :
  ~ In sep a -> split sep (a ++ sep :: b) = a :: split sep b.
Proof.
  induction a as [|c a IH]; simpl; intros H.
  - rewrite N.eqb_refl. reflexivity.
  - destruct (N.eqb_spec c sep) as [->|Hne]; [tauto|].
    rewrite IH by tauto. reflexivity.
Qed.

Lemma split_join (l : list str) :
  l <> [] -> Forall (fun w => ~ In sep w) l -> split sep (join [sep] l) = l.
Proof.
  induction l as [|x l IH]; [congruence|]; intros _ HF.
  inversion HF; subst.
  destruct l as [|y l].
  - simpl. now apply split_free.
  - change (join [sep] (x :: y :: l)) with (x ++ sep :: join [sep] (y :: l)).
    rewrite split_app by assumption.
    rewrite IH; [reflexivity | discriminate | assumption].
Qed.
End SplitJoin.

Lemma join_cons (sep x : str) (l : list str) :
  l <> [] -> join sep (x :: l) = x ++ sep ++ join sep l.
Proof. destruct l; [congruence | reflexivity]. Qed.

Lemma in_join (c : char) (sep : str) (l : list str) :
  In c (join sep l) -> In c sep \/ exists w, In w l /\ In c w.
Proof.
  induction l as [|x l IH]; simpl; [tauto|].
  destruct l as [|y l].
  - intros H. right. exists x. auto.
  - rewrite !in_app_iff. intros [H|[H|H]].
    + right. exists x. auto.
    + now left.
    + destruct (IH H) as [?|(w & Hw & Hc)]; [now left|].
      right. exists w. split; [now right | assumption].
Qed.

Lemma trimStart_suffix (s : str) :
  exists p, s = p ++ trimStart s /\ allWhite p.
Proof.
  induction s as [|c s (p & Hp & Hw)]; simpl.
  - exists []. split; [reflexivity | constructor].
  - destruct (isWhiteSpace c) eqn:E.
    + exists (c :: p). split; [simpl; congruence | now constructor].
    + exists []. split; [reflexivity | constructor].
Qed.

Lemma trimStart_length (s : str) : length (trimStart s) <= length s.
Proof.
  destruct (trimStart_suffix s) as (p & Hp & _).
  rewrite Hp at 2. rewrite length_app. lia.
Qed.

Lemma trimStart_fix (s : str) :
  trimStart s = s <->
  match s with [] => True | c :: _ => isWhiteSpace c = false end.
Proof.
  destruct s as [|c s]; simpl; [tauto|].
  destruct (isWhiteSpace c) eqn:E; split; auto; try discriminate.
  intros H. pose proof (trimStart_length s) as L.
  rewrite H in L. simpl in L. lia.
Qed.

Lemma trimStart_idem (s : str) : trimStart (trimStart s) = trimStart s.
Proof.
  induction s as [|c s IH]; simpl; [reflexivity|].
  destruct (isWhiteSpace c) eqn:E; [assumption|]. simpl. now rewrite E.
Qed.

Lemma trimStart_white_app (w s : str) :
  allWhite w -> trimStart (w ++ s) = trimStart s.
Proof.
  induction 1 as [|c w Hc _ IH]; simpl; [reflexivity|]. now rewrite Hc.
Qed.

Lemma trimStart_app_fix (t s : str) :
  t <> [] -> trimStart t = t -> trimStart (t ++ s) = t ++ s.
Proof.
  destruct t as [|c t]; [congruence|]. intros _ H.
  apply trimStart_fix in H. simpl. now rewrite H.
Qed.

Lemma allWhite_rev (w : str) : allWhite w -> allWhite (rev w).
Proof. unfold allWhite. rewrite !Forall_forall. intros H c Hc. apply H. now apply in_rev. Qed.

Lemma trim_trimmed (s : str) : trimmed (trim s).
Proof.
  unfold trimmed, trim, trimEnd.
  remember (trimStart s) as u eqn:Eu.
  assert (Hu : trimStart u = u) by (subst u; apply trimStart_idem).
  destruct (trimStart_suffix (rev u)) as (p & Hp & Hw).
  assert (Hv : trimStart (trimStart (rev u)) = trimStart (rev u))
    by apply trimStart_idem.
  remember (trimStart (rev u)) as v eqn:Ev. clear Ev Eu.
  split.
  - assert (Hrev : u = rev v ++ rev p).
    { rewrite <- (rev_involutive u), Hp, rev_app_distr. reflexivity. }
    apply trimStart_fix. apply trimStart_fix in Hu.
    destruct (rev v) as [|d r] eqn:Er.
    + exact I.
    + rewrite Hrev in Hu. exact Hu.
  - rewrite rev_involutive. exact Hv.
Qed.

Lemma trim_pad (w1 t w2 : str) :
  allWhite w1 -> allWhite w2 -> trimmed t -> trim (w1 ++ t ++ w2) = t.
Proof.
  intros H1 H2 [Ht Hr]. unfold trim, trimEnd.
  rewrite trimStart_white_app by assumption.
  destruct t as [|c t].
  - simpl. replace (trimStart w2) with (@nil char); [reflexivity|].
    rewrite <- (app_nil_r w2) at 1. now rewrite trimStart_white_app.
  - rewrite trimStart_app_fix by (assumption || discriminate).
    rewrite rev_app_distr, trimStart_white_app by now apply allWhite_rev.
    rewrite Hr. apply rev_involutive.
Qed.

Lemma in_trimStart (c : char) (s : str) : In c (trimStart s) -> In c s.
Proof.
  destruct (trimStart_suffix s) as (p & Hp & _). intros H.
  rewrite Hp. apply in_or_app. now right.
Qed.

Lemma in_trim (c : char) (s : str) : In c (trim s) -> In c s.
Proof.
  unfold trim, trimEnd. intros H.
  apply in_rev in H. apply in_trimStart in H. apply in_rev in H.
  now apply in_trimStart.
Qed.

Lemma trim_fix (s : str) : trimmed s -> trim s = s.
Proof.
  intros H. rewrite <- (app_nil_r s) at 1.
  apply (trim_pad [] s []); [constructor | constructor | assumption].
Qed.

(* ================================================================== *)
(** ** Facts about [map] with a throwing callback *)

Section Mapi.
Context {A B : Type} (f : A -> nat -> completion B).

Lemma mapi_from_inv (i : nat) (x : A) (l : list A) (ys : list B) :
  mapi_from i f (x :: l) = Normal ys ->
  exists y ys', ys = y :: ys' /\ f x i = Normal y /\
                mapi_from (S i) f l = Normal ys'.
Proof.
  simpl. destruct (f x i) as [y|e]; simpl; [|discriminate].
  destruct (mapi_from (S i) f l) as [ys'|e]; simpl; [|discriminate].
  intros H. inversion H. eauto.
Qed.

Lemma mapi_from_length (l : list A) :
  forall i ys, mapi_from i f l = Normal ys -> length ys = length l.
Proof.
  induction l as [|x l IH]; intros i ys H.
  - inversion H. reflexivity.
  - apply mapi_from_inv in H. destruct H as (y & ys' & -> & _ & H).
    simpl. f_equal. eauto.
Qed.

Lemma mapi_from_nth (l : list A) :
  forall i ys, mapi_from i f l = Normal ys ->
  forall k x, nth_error l k = Some x ->
  exists y, nth_error ys k = Some y /\ f x (i + k) = Normal y.
Proof.
  induction l as [|x l IH]; intros i ys H k a Hk.
  - destruct k; discriminate.
  - apply mapi_from_inv in H. destruct H as (y & ys' & -> & Hy & H).
    destruct k as [|k]; simpl in Hk.
    + inversion Hk; subst. exists y. rewrite Nat.add_0_r. auto.
    + destruct (IH _ _ H _ _ Hk) as (z & Hz & Hf).
      exists z. split; [exact Hz|]. now rewrite Nat.add_succ_r.
Qed.

Lemma mapi_from_total (l : list A) :
  forall i,
  (forall k x, nth_error l k = Some x -> exists y, f x (i + k) = Normal y) ->
  exists ys, mapi_from i f l = Normal ys.
Proof.
  induction l as [|x l IH]; intros i H.
  - exists []. reflexivity.
  - destruct (H 0 x eq_refl) as (y & Hy). rewrite Nat.add_0_r in Hy.
    destruct (IH (S i)) as (ys & Hys).
    { intros k a Hk. destruct (H (S k) a Hk) as (z & Hz).
      exists z. now rewrite Nat.add_succ_r in Hz. }
    exists (y :: ys). simpl. rewrite Hy. simpl. rewrite Hys. reflexivity.
Qed.

Lemma mapi_from_throw (l : list A) :
  forall i k x e,
  nth_error l k = Some x -> f x (i + k) = Throw e ->
  exists e', mapi_from i f l = Throw e'.
Proof.
  induction l as [|x l IH]; intros i k a e Hk Hf.
  - destruct k; discriminate.
  - simpl. destruct k as [|k]; simpl in Hk.
    + inversion Hk; subst. rewrite Nat.add_0_r in Hf. rewrite Hf. simpl. eauto.
    + destruct (f x i) as [y|e0]; simpl; [|eauto].
      rewrite Nat.add_succ_r in Hf.
      destruct (IH (S i) k a e Hk Hf) as (e' & ->). simpl. eauto.
Qed.
Lemma mapi_from_Forall (P : B -> Prop) (l : list A) :
  forall i ys, mapi_from i f l = Normal ys ->
  (forall k x y, nth_error l k = Some x -> f x (i + k) = Normal y -> P y) ->
  Forall P ys.
Proof.
  induction l as [|x l IH]; intros i ys H HP.
  - inversion H. constructor.
  - apply mapi_from_inv in H. destruct H as (y & ys' & -> & Hy & H).
    constructor.
    + apply (HP 0 x y); [reflexivity | now rewrite Nat.add_0_r].
    + apply (IH (S i)); [assumption|].
      intros k a b Hk Hf. apply (HP (S k) a b); [assumption|].
      now rewrite Nat.add_succ_r.
Qed.
End Mapi.

(* ================================================================== *)
(** ** Facts about the parsed grid *)

Lemma fold_max_ge_init (rest : list Z) :
  forall x, (x <= fold_left Z.max rest x)%Z.
Proof.
  induction rest as [|z rest IH]; simpl; intros x; [lia|].
  specialize (IH (Z.max x z)). lia.
Qed.

Lemma fold_max_ge_in (rest : list Z) :
  forall x y, In y rest -> (y <= fold_left Z.max rest x)%Z.
Proof.
  induction rest as [|z rest IH]; simpl; intros x y H; [tauto|].
  destruct H as [->|H]; [|now apply IH].
  pose proof (fold_max_ge_init rest (Z.max x y)). lia.
Qed.

Lemma fold_max_in (rest : list Z) :
  forall x, fold_left Z.max rest x = x \/ In (fold_left Z.max rest x) rest.
Proof.
  induction rest as [|z rest IH]; simpl; intros x; [now left|].
  destruct (IH (Z.max x z)) as [H|H]; [|now right; right].
  rewrite H. destruct (Z.max_spec x z) as [[_ ->]|[_ ->]]; auto.
Qed.

Lemma Math_max_ge (xs : list Z) (y : Z) : In y xs -> (y <= Math_max xs)%Z.
Proof.
  destruct xs as [|x rest]; simpl; [tauto|]. intros [<-|H].
  - apply fold_max_ge_init.
  - now apply fold_max_ge_in.
Qed.

Lemma Math_max_in (xs : list Z) : xs <> [] -> In (Math_max xs) xs.
Proof.
  destruct xs as [|x rest]; [congruence|]. intros _. simpl.
  destruct (fold_max_in rest x) as [->|H]; auto.
Qed.

Lemma in_shiftEmpty (c : str) (row : list str) : In c (shiftEmpty row) -> In c row.
Proof. destruct row as [|[|? ?] ?]; simpl; auto. Qed.

Lemma in_popEmpty (c : str) (row : list str) : In c (popEmpty row) -> In c row.
Proof.
  induction row as [|x row IH]; simpl; [tauto|].
  destruct row as [|y row].
  - destruct x; simpl; tauto.
  - intros [H|H]; [now left | right; now apply IH].
Qed.

Lemma popEmpty_snoc (row : list str) (c : str) :
  popEmpty (row ++ [c]) = match c with [] => row | _ :: _ => row ++ [c] end.
Proof.
  induction row as [|x row IH].
  - destruct c; reflexivity.
  - change ((x :: row) ++ [c]) with (x :: (row ++ [c])).
    destruct (row ++ [c]) as [|y r] eqn:E.
    + destruct row; discriminate.
    + change (popEmpty (x :: y :: r)) with (x :: popEmpty (y :: r)).
      rewrite IH. destruct c; reflexivity.
Qed.

(** Every cell of a cleaned row is the trimmed text of a pipe-delimited
    piece of one of the lines. *)
Lemma cleaned_cell (lines : list str) (row : list str) (cell : str) :
  In row (cleanedRowsOf lines) -> In cell row ->
  exists line piece,
    In line lines /\ In piece (split pipe (trim line)) /\ cell = trim piece.
Proof.
  unfold cleanedRowsOf. rewrite map_map. intros Hrow Hcell.
  apply in_map_iff in Hrow. destruct Hrow as (line & <- & Hline).
  apply in_popEmpty, in_shiftEmpty in Hcell.
  apply in_map_iff in Hcell. destruct Hcell as (piece & <- & Hpiece).
  eauto.
Qed.

Lemma cleaned_cell_trimmed lines row cell :
  In row (cleanedRowsOf lines) -> In cell row -> trimmed cell.
Proof.
  intros Hr Hc. destruct (cleaned_cell _ _ _ Hr Hc) as (l & p & _ & _ & ->).
  apply trim_trimmed.
Qed.

Lemma cleaned_cell_no_pipe lines row cell :
  In row (cleanedRowsOf lines) -> In cell row -> ~ In pipe cell.
Proof.
  intros Hr Hc. destruct (cleaned_cell _ _ _ Hr Hc) as (l & p & _ & Hp & ->).
  intros H. apply in_trim in H.
  pose proof (split_sep_free pipe (trim l)) as HF.
  rewrite Forall_forall in HF. exact (HF _ Hp H).
Qed.

Lemma split_pieces_sub (sep c : char) (s piece : str) :
  In piece (split sep s) -> In c piece -> In c s.
Proof.
  revert piece. induction s as [|x s IH]; simpl; intros piece Hp Hc.
  - destruct Hp as [<-|[]]. exact Hc.
  - destruct (x =? sep)%N.
    + destruct Hp as [<-|Hp]; [destruct Hc | right; eauto].
    + destruct (split sep s) as [|w ws].
      * destruct Hp as [<-|[]]. destruct Hc as [->|[]]. now left.
      * destruct Hp as [<-|Hp].
        -- destruct Hc as [->|Hc]; [now left | right].
           apply (IH w); [now left | assumption].
        -- right. apply (IH piece); [now right | assumption].
Qed.

Lemma cleaned_cell_no_nl markdown row cell :
  In row (cleanedRowsOf (linesOf markdown)) -> In cell row -> ~ In nl cell.
Proof.
  intros Hr Hc. destruct (cleaned_cell _ _ _ Hr Hc) as (l & p & Hl & Hp & ->).
  intros H. apply in_trim in H.
  apply (split_pieces_sub _ _ _ _ Hp) in H. apply in_trim in H.
  pose proof (split_sep_free nl (trim markdown)) as HF.
  rewrite Forall_forall in HF. exact (HF _ Hl H).
Qed.

Lemma isValid_length (rows : list (list str)) (row : list str) :
  isValid rows = true -> In row rows -> length row = colCountOf rows.
Proof.
  unfold isValid. rewrite forallb_forall. intros H Hin.
  apply Nat.eqb_eq. now apply H.
Qed.

Lemma cleanedRowsOf_length (lines : list str) :
  length (cleanedRowsOf lines) = length lines.
Proof. unfold cleanedRowsOf. now rewrite !length_map. Qed.

Lemma validTable_row (markdown : str) (i : nat) :
  validTable markdown -> i < length (linesOf markdown) ->
  exists row, nth_error (cleanedRowsOf (linesOf markdown)) i = Some row /\
              length row = colCountOf (cleanedRowsOf (linesOf markdown)).
Proof.
  intros [_ Hv] Hi.
  destruct (nth_error (cleanedRowsOf (linesOf markdown)) i) as [row|] eqn:E.
  - exists row. split; [reflexivity|].
    apply isValid_length; [assumption|]. eapply nth_error_In; eauto.
  - apply nth_error_None in E. rewrite cleanedRowsOf_length in E. lia.
Qed.

(* ================================================================== *)
(** ** Facts about the regular expressions *)

Lemma test_nil (s : str) : test [] s = true <-> s = [].
Proof. destruct s; simpl; split; congruence. Qed.

Lemma test_once (c : char) (re : regex) (s : str) :
  test ((c, Once) :: re) s = true <->
  exists rest, s = c :: rest /\ test re rest = true.
Proof.
  destruct s as [|x s]; simpl.
  - split; [discriminate | intros (r & H & _); discriminate].
  - rewrite andb_true_iff, N.eqb_eq. split.
    + intros [-> H]. eauto.
    + intros (r & H & Ht). inversion H; subst. auto.
Qed.

Lemma test_plus (c : char) (re : regex) (s : str) :
  test ((c, OneOrMore) :: re) s = true <->
  exists n rest, 1 <= n /\ s = repeat c n ++ rest /\ test re rest = true.
Proof.
  induction s as [|x s IH].
  - simpl. split; [discriminate|].
    intros (n & r & Hn & H & _). destruct n; [lia | discriminate].
  - change (test ((c, OneOrMore) :: re) (x :: s))
      with ((x =? c)%N && (test ((c, OneOrMore) :: re) s || test re s)).
    rewrite andb_true_iff, orb_true_iff, N.eqb_eq, IH. split.
    + intros [-> [(n & r & Hn & -> & Ht)|Ht]].
      * exists (S n), r. repeat split; [lia | assumption].
      * exists 1, s. repeat split; [lia | assumption].
    + intros (n & r & Hn & H & Ht).
      destruct n as [|n]; [lia|]. simpl in H. inversion H; subst.
      split; [reflexivity|].
      destruct n as [|n]; [now right | left].
      exists (S n), r. repeat split; [lia | assumption].
Qed.

Lemma test_center (cell : str) : test re_center cell = true <-> isCenterMarker cell.
Proof.
  unfold re_center, isCenterMarker. rewrite test_once. split.
  - intros (r & -> & H). apply test_plus in H.
    destruct H as (n & r' & Hn & -> & H). apply test_once in H.
    destruct H as (r'' & -> & H). apply test_nil in H. subst. eauto.
  - intros (n & Hn & ->). eexists. split; [reflexivity|].
    apply test_plus. exists n, [colon]. split; [assumption|]. split; [reflexivity|].
    apply test_once. exists []. split; reflexivity.
Qed.

Lemma test_left (cell : str) : test re_left cell = true <-> isLeftMarker cell.
Proof.
  unfold re_left, isLeftMarker. rewrite test_once. split.
  - intros (r & -> & H). apply test_plus in H.
    destruct H as (n & r' & Hn & -> & H). apply test_nil in H. subst.
    rewrite app_nil_r. eauto.
  - intros (n & Hn & ->). eexists. split; [reflexivity|].
    apply test_plus. exists n, []. rewrite app_nil_r. split; [assumption|]. split; reflexivity.
Qed.

Lemma test_right (cell : str) : test re_right cell = true <-> isRightMarker cell.
Proof.
  unfold re_right, isRightMarker. rewrite test_plus. split.
  - intros (n & r & Hn & -> & H). apply test_once in H.
    destruct H as (r' & -> & H). apply test_nil in H. subst. eauto.
  - intros (n & Hn & ->). exists n, [colon]. split; [assumption|]. split; [reflexivity|].
    apply test_once. exists []. split; reflexivity.
Qed.

(** What [alignmentOf] returns, in terms of the three languages. *)
Lemma alignmentOf_spec (cell : str) :
  (isCenterMarker cell -> alignmentOf cell = Center) /\
  (~ isCenterMarker cell -> isLeftMarker cell -> alignmentOf cell = Left) /\
  (~ isCenterMarker cell -> ~ isLeftMarker cell -> isRightMarker cell ->
   alignmentOf cell = Right) /\
  (~ isCenterMarker cell -> ~ isLeftMarker cell -> ~ isRightMarker cell ->
   alignmentOf cell = Left).
Proof.
  unfold alignmentOf.
  rewrite <- test_center, <- test_left, <- test_right.
  destruct (test re_center cell), (test re_left cell), (test re_right cell);
    repeat split; intros; congruence.
Qed.

Example alignmentOf_examples :
  alignmentOf (lit ":--:") = Center /\ alignmentOf (lit ":--") = Left /\
  alignmentOf (lit "--:") = Right /\ alignmentOf (lit "--") = Left.
Proof. repeat split. Qed.

(* ================================================================== *)
(** ** Facts about the rendered cells and rows *)

Lemma concat_repeat_single (c : char) (n : nat) :
  concat (repeat [c] n) = repeat c n.
Proof. induction n; simpl; congruence. Qed.

Lemma repeat_inv (c : char) (n : Z) (s : str) :
  repeat_ [c] n = Normal s -> (0 <= n)%Z /\ s = repeat c (Z.to_nat n).
Proof.
  unfold repeat_. destruct (Z.ltb_spec n 0) as [Hn|Hn]; [discriminate|].
  intros E. inversion E. split; [lia | apply concat_repeat_single].
Qed.

Lemma repeat_total (c : char) (n : Z) :
  (0 <= n)%Z -> repeat_ [c] n = Normal (repeat c (Z.to_nat n)).
Proof.
  intros H. unfold repeat_. destruct (Z.ltb_spec n 0); [lia|].
  now rewrite concat_repeat_single.
Qed.

Lemma repeat_throw (s : str) (n : Z) :
  (n < 0)%Z -> repeat_ s n = Throw RangeError.
Proof. intros H. unfold repeat_. destruct (Z.ltb_spec n 0); [reflexivity | lia]. Qed.

Lemma allWhite_spaces (n : nat) : allWhite (repeat space n).
Proof. induction n; simpl; constructor; auto. Qed.

Lemma in_repeat (c x : char) (n : nat) : In x (repeat c n) -> x = c.
Proof. intros H. exact (repeat_spec n c x H). Qed.

(** A padded cell is the text between two runs of spaces, and is as long
    as the width asked for. *)
Lemma padCell_inv (text : str) (width : Z) (s : str) :
  padCell text width = Normal s ->
  exists l r, s = repeat space l ++ text ++ repeat space r /\ len s = width.
Proof.
  unfold padCell. intros H.
  destruct (repeat_ [space] ((width - len text) / 2)) as [l|] eqn:El;
    simpl in H; [|discriminate].
  destruct (repeat_ [space] (width - len text - (width - len text) / 2))
    as [r|] eqn:Er; simpl in H; [|discriminate].
  inversion H; subst s; clear H.
  apply repeat_inv in El, Er. destruct El as [Hl ->], Er as [Hr ->].
  eexists _, _. split; [reflexivity|].
  unfold len in *. rewrite !length_app, !repeat_length. lia.
Qed.

Lemma padCell_total (text : str) (width : Z) :
  (len text <= width)%Z -> exists s, padCell text width = Normal s.
Proof.
  intros H. unfold padCell.
  assert (0 <= (width - len text) / 2)%Z by (apply Z.div_pos; lia).
  assert ((width - len text) / 2 <= width - len text)%Z
    by (apply Z.div_le_upper_bound; lia).
  rewrite !repeat_total by lia. simpl. eauto.
Qed.

(** A rebuilt separator cell is made of dashes and colons and is one
    character longer than the width it is given. *)
Lemma sepCell_inv (a : alignment) (n : Z) (s : str) :
  sepCell a n = Normal s ->
  Forall (fun c => c = dash \/ c = colon) s /\ len s = (n + 1)%Z.
Proof.
  unfold sepCell. intros H.
  destruct (repeat_ [dash] _) as [l|] eqn:El in H; simpl in H; [|discriminate].
  destruct (repeat_ [dash] _) as [r|] eqn:Er in H; simpl in H; [|discriminate].
  inversion H; subst s; clear H.
  apply repeat_inv in El, Er. destruct El as [Hl ->], Er as [Hr ->].
  split.
  - rewrite !Forall_app. repeat split.
    + destruct a; (constructor; [auto | constructor]).
    + apply Forall_forall. intros x Hx. left. eapply in_repeat; eauto.
    + destruct a; (constructor; [auto | constructor]).
    + apply Forall_forall. intros x Hx. left. eapply in_repeat; eauto.
  - unfold len. rewrite !length_app, !repeat_length.
    destruct a; simpl length; lia.
Qed.

Lemma sepCell_total (a : alignment) (n : Z) :
  (1 <= n)%Z -> exists s, sepCell a n = Normal s.
Proof.
  intros H. unfold sepCell.
  assert (0 <= (n - 1) / 2)%Z by (apply Z.div_pos; lia).
  assert ((n - 1) / 2 <= n - 1)%Z by (apply Z.div_le_upper_bound; lia).
  destruct a; rewrite !repeat_total by lia; simpl; eauto.
Qed.

Lemma sepCell_zero : sepCell Left 0 = Throw RangeError.
Proof. reflexivity. Qed.

Lemma split_row_tail (cells : list str) :
  cells <> [] -> Forall (fun c => ~ In pipe c) cells ->
  split pipe (space :: join [space; pipe; space] cells ++ [space; pipe])
  = map wrap cells ++ [[]].
Proof.
  induction cells as [|c cells IH]; [congruence|]. intros _ HF.
  inversion HF as [|? ? Hc HF']; subst.
  assert (Hw : ~ In pipe (wrap c)).
  { unfold wrap. simpl. rewrite in_app_iff. simpl.
    intros [H|[H|[H|[]]]]; try discriminate. tauto. }
  destruct cells as [|c' cells].
  - change (space :: join [space; pipe; space] [c] ++ [space; pipe])
      with ((space :: c) ++ [space] ++ pipe :: []).
    rewrite app_assoc. rewrite split_app by exact Hw. reflexivity.
  - rewrite join_cons by discriminate.
    replace (space :: (c ++ [space; pipe; space] ++ join [space; pipe; space] (c' :: cells))
                     ++ [space; pipe])
      with (wrap c ++ pipe ::
              (space :: join [space; pipe; space] (c' :: cells) ++ [space; pipe])).
    2:{ unfold wrap. simpl. f_equal. rewrite <- !app_assoc. reflexivity. }
    rewrite split_app by exact Hw.
    rewrite IH; [reflexivity | discriminate | assumption].
Qed.

(** The segments of a rendered row are its cells, each between two
    spaces. *)
Lemma segments_row (cells : list str) :
  cells <> [] -> Forall (fun c => ~ In pipe c) cells ->
  segments (lit "| " ++ join (lit " | ") cells ++ lit " |") = map wrap cells.
Proof.
  intros Hne HF. unfold segments.
  change (lit "| " ++ join (lit " | ") cells ++ lit " |")
    with (pipe :: space :: join [space; pipe; space] cells ++ [space; pipe]).
  change (split pipe (pipe :: space :: join [space; pipe; space] cells ++ [space; pipe]))
    with ([] :: split pipe (space :: join [space; pipe; space] cells ++ [space; pipe])).
  rewrite split_row_tail by assumption.
  simpl tl. apply removelast_last.
Qed.

Lemma row_line_no_nl (cells : list str) :
  Forall (fun c => ~ In nl c) cells ->
  ~ In nl (lit "| " ++ join (lit " | ") cells ++ lit " |").
Proof.
  intros HF H. rewrite Forall_forall in HF.
  rewrite !in_app_iff in H. destruct H as [H|[H|H]].
  - simpl in H. intuition discriminate.
  - apply in_join in H. destruct H as [H|(w & Hw & Hc)].
    + simpl in H. intuition discriminate.
    + exact (HF w Hw Hc).
  - simpl in H. intuition discriminate.
Qed.

Section Rendering.
Variables (alignments : list alignment) (colWidths : list Z).

Lemma formatCell_data (rowIndex : nat) (cell : str) (i : nat) (s : str) :
  rowIndex <> 1 ->
  formatCell alignments colWidths rowIndex cell i = Normal s ->
  exists l r, s = repeat space l ++ cell ++ repeat space r /\
              len s = nth i colWidths 0%Z.
Proof.
  intros Hne. unfold formatCell.
  destruct (Nat.eqb_spec rowIndex 1); [contradiction|]. apply padCell_inv.
Qed.

Lemma formatCell_sep (cell : str) (i : nat) (s : str) :
  formatCell alignments colWidths 1 cell i = Normal s ->
  Forall (fun c => c = dash \/ c = colon) s /\
  len s = (nth i colWidths 0 + 1)%Z.
Proof. unfold formatCell. simpl. apply sepCell_inv. Qed.

(** A character other than a space, a dash and a colon occurs in a
    rendered cell only if it occurs in the cell's text. *)
Lemma formatCell_chars (x : char) (rowIndex : nat) (cell : str) (i : nat) (s : str) :
  x <> space -> x <> dash -> x <> colon ->
  formatCell alignments colWidths rowIndex cell i = Normal s ->
  In x s -> In x cell.
Proof.
  intros Hs Hd Hc H Hin.
  destruct (Nat.eq_dec rowIndex 1) as [->|Hne].
  - apply formatCell_sep in H. destruct H as [HF _].
    rewrite Forall_forall in HF. destruct (HF x Hin); congruence.
  - apply (formatCell_data _ _ _ _ Hne) in H. destruct H as (l & r & -> & _).
    rewrite !in_app_iff in Hin. destruct Hin as [Hin|[Hin|Hin]];
      [apply in_repeat in Hin; congruence | assumption
      | apply in_repeat in Hin; congruence].
Qed.

Lemma formatRow_inv (row : list str) (rowIndex : nat) (line : str) :
  formatRow alignments colWidths row rowIndex = Normal line ->
  exists cells,
    mapi (formatCell alignments colWidths rowIndex) row = Normal cells /\
    line = lit "| " ++ join (lit " | ") cells ++ lit " |".
Proof.
  unfold formatRow. intros H.
  destruct (mapi _ row) as [cells|]; simpl in H; [|discriminate].
  inversion H. eauto.
Qed.

Lemma formatRow_cells_free (x : char) (row : list str) (rowIndex : nat)
      (cells : list str) :
  x <> space -> x <> dash -> x <> colon ->
  Forall (fun c => ~ In x c) row ->
  mapi (formatCell alignments colWidths rowIndex) row = Normal cells ->
  Forall (fun c => ~ In x c) cells.
Proof.
  intros Hs Hd Hc HF H. rewrite Forall_forall in HF.
  apply (mapi_from_Forall _ _ _ _ _ H).
  intros k cell y Hk Hy Hin.
  apply (HF cell (nth_error_In _ _ Hk)).
  eapply formatCell_chars; eauto.
Qed.
End Rendering.

Lemma format_valid_inv (markdown : str) (r : result) :
  validTable markdown -> formatMarkdownTable markdown = Normal r ->
  exists formattedRows,
    mapi (formatRow (alignmentsOf (cleanedRowsOf (linesOf markdown)))
                    (colWidthsOf (cleanedRowsOf (linesOf markdown))))
         (cleanedRowsOf (linesOf markdown)) = Normal formattedRows /\
    r = mkResult (join [nl] formattedRows) [].
Proof.
  intros [Hlen Hv]. unfold formatMarkdownTable.
  destruct (Nat.ltb_spec (length (linesOf markdown)) 2); [lia|].
  rewrite Hv. simpl negb. cbv iota.
  destruct (mapi _ _) as [F|]; simpl; [|discriminate].
  intros E. inversion E. eauto.
Qed.

(** The rendered rows of a valid table contain no newline, so splitting
    the returned string on newlines gives them back. *)
Lemma format_lines (markdown : str) (formattedRows : list str) :
  validTable markdown ->
  mapi (formatRow (alignmentsOf (cleanedRowsOf (linesOf markdown)))
                  (colWidthsOf (cleanedRowsOf (linesOf markdown))))
       (cleanedRowsOf (linesOf markdown)) = Normal formattedRows ->
  split nl (join [nl] formattedRows) = formattedRows.
Proof.
  intros [Hlen Hv] H. apply split_join.
  - apply mapi_from_length in H. rewrite cleanedRowsOf_length in H.
    intros ->. simpl in H. lia.
  - apply (mapi_from_Forall _ _ _ _ _ H). intros k row line Hk Hline.
    apply formatRow_inv in Hline. destruct Hline as (cells & Hcells & ->).
    apply row_line_no_nl.
    refine (formatRow_cells_free _ _ nl row _ cells _ _ _ _ Hcells);
      try discriminate.
    apply Forall_forall. intros cell Hcell.
    apply (cleaned_cell_no_nl markdown row); [eapply nth_error_In; eauto | assumption].
Qed.

Lemma colWidth_nth (rows : list (list str)) (col : nat) :
  col < colCountOf rows ->
  nth col (colWidthsOf rows) 0%Z
  = Math_max (map (fun row => len (nth col row [])) rows).
Proof.
  intros H. apply nth_error_nth. unfold colWidthsOf.
  rewrite nth_error_map, nth_error_seq.
  destruct (Nat.ltb_spec col (colCountOf rows)); [reflexivity | lia].
Qed.

Lemma colWidth_ge (rows : list (list str)) (row : list str) (col : nat) (cell : str) :
  col < colCountOf rows -> In row rows -> nth_error row col = Some cell ->
  (len cell <= nth col (colWidthsOf rows) 0)%Z.
Proof.
  intros Hcol Hin Hcell. rewrite colWidth_nth by assumption.
  apply Math_max_ge. apply in_map_iff. exists row. split; [|assumption].
  now rewrite (nth_error_nth _ _ [] Hcell).
Qed.

(** [formatMarkdownTable] returns on a valid table whose columns all have
    a width of at least one. *)
Lemma format_returns (markdown : str) :
  validTable markdown ->
  (forall col, col < colCountOf (cleanedRowsOf (linesOf markdown)) ->
               (1 <= nth col (colWidthsOf (cleanedRowsOf (linesOf markdown))) 0)%Z) ->
  exists formattedRows,
    formatMarkdownTable markdown = Normal (mkResult (join [nl] formattedRows) []).
Proof.
  intros Hvalid Hw. pose proof Hvalid as [Hlen Hv].
  set (rows := cleanedRowsOf (linesOf markdown)) in *.
  assert (HF : exists F, mapi (formatRow (alignmentsOf rows) (colWidthsOf rows)) rows
                         = Normal F).
  { apply mapi_from_total. intros k row Hrow. simpl.
    assert (Hin : In row rows) by (eapply nth_error_In; eauto).
    assert (Hcells : exists cells,
               mapi (formatCell (alignmentsOf rows) (colWidthsOf rows) k) row
               = Normal cells).
    { apply mapi_from_total. intros j cell Hcell. simpl.
      assert (Hj : j < colCountOf rows).
      { rewrite <- (isValid_length rows row Hv Hin).
        apply nth_error_Some. congruence. }
      unfold formatCell. destruct (k =? 1).
      - apply sepCell_total. now apply Hw.
      - apply padCell_total. now apply (colWidth_ge rows row). }
    destruct Hcells as (cells & Hcells). unfold formatRow.
    rewrite Hcells. simpl. eauto. }
  destruct HF as (F & HF). exists F. unfold formatMarkdownTable.
  destruct (Nat.ltb_spec (length (linesOf markdown)) 2); [lia|].
  fold rows. rewrite Hv. simpl negb. cbv iota. rewrite HF. reflexivity.
Qed.

(** [formatMarkdownTable] throws on a valid table that has a column of
    width zero: the separator cell of that column asks for [-1] dashes. *)
Lemma format_throws (markdown : str) (col : nat) :
  validTable markdown ->
  col < colCountOf (cleanedRowsOf (linesOf markdown)) ->
  nth col (colWidthsOf (cleanedRowsOf (linesOf markdown))) 0%Z = 0%Z ->
  formatMarkdownTable markdown = Throw RangeError.
Proof.
  intros Hvalid Hcol Hw. pose proof Hvalid as [Hlen Hv].
  destruct (validTable_row markdown 1 Hvalid) as (sepRow & Hsep & Hl); [lia|].
  set (rows := cleanedRowsOf (linesOf markdown)) in *.
  destruct (nth_error sepRow col) as [cell|] eqn:Hcell.
  2:{ apply nth_error_None in Hcell. lia. }
  assert (Hin : In sepRow rows) by (eapply nth_error_In; eauto).
  assert (Hnil : cell = []).
  { pose proof (colWidth_ge rows sepRow col cell Hcol Hin Hcell) as L.
    rewrite Hw in L. unfold len in L. destruct cell; [reflexivity | simpl in L; lia]. }
  assert (Ha : nth col (alignmentsOf rows) Left = Left).
  { apply nth_error_nth. unfold alignmentsOf.
    rewrite (nth_error_nth _ _ [] Hsep).
    rewrite (map_nth_error alignmentOf _ _ Hcell). now subst cell. }
  assert (Hc : formatCell (alignmentsOf rows) (colWidthsOf rows) 1 cell (0 + col)
               = Throw RangeError).
  { unfold formatCell. simpl. rewrite Ha, Hw. reflexivity. }
  destruct (mapi_from_throw _ _ 0 _ _ _ Hcell Hc) as (e1 & He1).
  assert (Hr : formatRow (alignmentsOf rows) (colWidthsOf rows) sepRow (0 + 1)
               = Throw e1).
  { unfold formatRow, mapi. simpl. rewrite He1. reflexivity. }
  destruct (mapi_from_throw _ _ 0 _ _ _ Hsep Hr) as (e2 & He2).
  unfold formatMarkdownTable.
  destruct (Nat.ltb_spec (length (linesOf markdown)) 2); [lia|].
  fold rows. rewrite Hv. simpl negb. cbv iota. unfold mapi. rewrite He2.
  destruct e2. reflexivity.
Qed.

(** In every row of the output of a valid table the segment of a column
    is two characters longer than the column's width, except in row 1, where
    it is three characters longer. *)
Lemma format_segment_lengths (markdown : str) (r : result)
      (rowIndex col : nat) (row : list str) :
  validTable markdown ->
  formatMarkdownTable markdown = Normal r ->
  nth_error (cleanedRowsOf (linesOf markdown)) rowIndex = Some row ->
  col < length row ->
  exists line seg,
    nth_error (split nl (returned r)) rowIndex = Some line /\
    nth_error (segments line) col = Some seg /\
    len seg = (nth col (colWidthsOf (cleanedRowsOf (linesOf markdown))) 0
               + if Nat.eqb rowIndex 1 then 3 else 2)%Z.
Proof.
  intros Hvalid Hfmt Hrow Hcol.
  destruct (format_valid_inv _ _ Hvalid Hfmt) as (F & HF & ->).
  simpl returned. rewrite (format_lines _ _ Hvalid HF).
  destruct (mapi_from_nth _ _ _ _ HF _ _ Hrow) as (line & Hline & Hf).
  simpl in Hf. apply formatRow_inv in Hf. destruct Hf as (cells & Hcells & ->).
  destruct (nth_error row col) as [cell|] eqn:Hcell.
  2:{ apply nth_error_None in Hcell. lia. }
  destruct (mapi_from_nth _ _ _ _ Hcells _ _ Hcell) as (y & Hy & Hfy).
  simpl in Hfy.
  assert (Hin : In row (cleanedRowsOf (linesOf markdown)))
    by (eapply nth_error_In; eauto).
  assert (Hseg : segments (lit "| " ++ join (lit " | ") cells ++ lit " |")
                 = map wrap cells).
  { apply segments_row.
    - intros ->. destruct col; discriminate.
    - refine (formatRow_cells_free _ _ pipe row _ cells _ _ _ _ Hcells);
        try discriminate.
      apply Forall_forall. intros c Hc.
      now apply (cleaned_cell_no_pipe (linesOf markdown) row). }
  eexists _, _. split; [exact Hline|]. rewrite Hseg.
  split; [apply map_nth_error; exact Hy|].
  assert (Hlen : len (wrap y) = (len y + 2)%Z).
  { unfold wrap, len. simpl. rewrite length_app. simpl. lia. }
  rewrite Hlen. destruct (Nat.eqb_spec rowIndex 1) as [->|Hne].
  - apply formatCell_sep in Hfy. lia.
  - apply (formatCell_data _ _ _ _ _ _ Hne) in Hfy.
    destruct Hfy as (l & rr & _ & L). lia.
Qed.

(** A rebuilt separator cell of a centered column contains no colon. *)
Lemma sepCell_center_dashes (n : Z) (s : str) :
  sepCell Center n = Normal s -> s = repeat dash (Z.to_nat (n + 1)).
Proof.
  unfold sepCell. intros H.
  destruct (repeat_ [dash] _) as [l|] eqn:El in H; simpl in H; [|discriminate].
  destruct (repeat_ [dash] _) as [r|] eqn:Er in H; simpl in H; [|discriminate].
  inversion H; subst s; clear H.
  apply repeat_inv in El, Er. destruct El as [Hl ->], Er as [Hr ->].
  replace (Z.to_nat (n + 1))
    with (S (Z.to_nat ((n - 1) / 2)) + S (Z.to_nat (n - 1 - (n - 1) / 2)))
    by lia.
  rewrite repeat_app. reflexivity.
Qed.

(* ================================================================== *)
(** ** Properties of [formatMarkdownTable] *)

(** C4: when some cleaned row has a cell count other than row 0's,
    [formatMarkdownTable] logs the diagnostic and returns its argument
    unchanged. *)
Theorem format_inconsistent_returns_input (markdown : str) :
  (exists row, In row (cleanedRowsOf (linesOf markdown)) /\
               length row <> colCountOf (cleanedRowsOf (linesOf markdown))) ->
  formatMarkdownTable markdown = Normal (mkResult markdown [diagnostic]).
Proof.
  intros (row & Hin & Hne). unfold formatMarkdownTable.
  destruct (Nat.ltb_spec (length (linesOf markdown)) 2) as [Hlt|Hge].
  - exfalso. apply Hne.
    pose proof (split_length_pos nl (trim markdown)) as Hpos.
    fold (linesOf markdown) in Hpos.
    destruct (linesOf markdown) as [|l [|l' ls]]; simpl in *; try lia.
    destruct Hin as [<-|[]]. reflexivity.
  - destruct (isValid (cleanedRowsOf (linesOf markdown))) eqn:Hv; simpl.
    + exfalso. apply Hne. now apply isValid_length.
    + reflexivity.
Qed.

Lemma format_inconsistent_returns_input_witness :
  (exists row, In row (cleanedRowsOf (linesOf inconsistentExample)) /\
     length row <> colCountOf (cleanedRowsOf (linesOf inconsistentExample))) /\
  formatMarkdownTable inconsistentExample
  = Normal (mkResult inconsistentExample [diagnostic]).
Proof.
  assert (H : exists row,
             In row (cleanedRowsOf (linesOf inconsistentExample)) /\
             length row <> colCountOf (cleanedRowsOf (linesOf inconsistentExample))).
  { exists [lit "---"]. split; [vm_compute; auto | vm_compute; lia]. }
  split; [exact H|].
  exact (format_inconsistent_returns_input inconsistentExample H).
Defined.

(** C5: on a valid table the width computed for a column is the largest
    cell length found in that column over all cleaned rows: no cell of the
    column is longer, some cell has exactly that length, and the cell of the
    separator row is one of those compared. *)
Theorem colWidth_is_column_max (markdown : str) (col : nat) :
  validTable markdown ->
  col < colCountOf (cleanedRowsOf (linesOf markdown)) ->
  exists w,
    nth_error (colWidthsOf (cleanedRowsOf (linesOf markdown))) col = Some w /\
    (forall row cell,
        In row (cleanedRowsOf (linesOf markdown)) ->
        nth_error row col = Some cell -> (len cell <= w)%Z) /\
    (exists row cell,
        In row (cleanedRowsOf (linesOf markdown)) /\
        nth_error row col = Some cell /\ len cell = w) /\
    (exists sepRow sepText,
        nth_error (cleanedRowsOf (linesOf markdown)) 1 = Some sepRow /\
        nth_error sepRow col = Some sepText /\ (len sepText <= w)%Z).
Proof.
  intros Hvalid Hcol. pose proof Hvalid as [Hlen Hv].
  set (rows := cleanedRowsOf (linesOf markdown)) in *.
  set (lens := map (fun row => len (nth col row [])) rows).
  exists (Math_max lens).
  assert (Hw : nth_error (colWidthsOf rows) col = Some (Math_max lens)).
  { unfold colWidthsOf. rewrite nth_error_map, nth_error_seq.
    destruct (Nat.ltb_spec col (colCountOf rows)); [reflexivity | lia]. }
  assert (Hle : forall row cell, In row rows -> nth_error row col = Some cell ->
                                 (len cell <= Math_max lens)%Z).
  { intros row cell Hin Hcell. apply Math_max_ge. unfold lens.
    apply in_map_iff. exists row. split; [|assumption].
    now rewrite (nth_error_nth _ _ [] Hcell). }
  split; [exact Hw|]. split; [exact Hle|]. split.
  - assert (Hne : lens <> []).
    { unfold lens. intros E. apply map_eq_nil in E.
      assert (L : length rows = 0) by now rewrite E.
      unfold rows in L. rewrite cleanedRowsOf_length in L. lia. }
    apply Math_max_in in Hne. unfold lens in Hne at 2.
    apply in_map_iff in Hne. destruct Hne as (row & Hrow & Hin).
    exists row, (nth col row []). repeat split; [assumption| |assumption].
    apply nth_error_nth'. pose proof (isValid_length _ _ Hv Hin) as L. fold rows in L.
    unfold str in *. lia.
  - destruct (validTable_row markdown 1 Hvalid) as (sepRow & Hsep & Hl); [lia|].
    fold rows in Hsep, Hl.
    exists sepRow, (nth col sepRow []).
    assert (Hc : nth_error sepRow col = Some (nth col sepRow []))
      by (apply nth_error_nth'; lia).
    repeat split; [assumption | assumption |].
    apply (Hle sepRow); [eapply nth_error_In; eauto | assumption].
Qed.

(** C6: on a valid table the alignment of a column is decided by the cell
    of row 1 in that column, trying in this order: a colon, dashes and a
    colon give center; else a colon and dashes give left; else dashes and a
    colon give right; anything else gives left. *)
Theorem alignment_inferred_from_separator (markdown : str) (col : nat) :
  validTable markdown ->
  col < colCountOf (cleanedRowsOf (linesOf markdown)) ->
  exists sepRow cell a,
    nth_error (cleanedRowsOf (linesOf markdown)) 1 = Some sepRow /\
    nth_error sepRow col = Some cell /\
    nth_error (alignmentsOf (cleanedRowsOf (linesOf markdown))) col = Some a /\
    (isCenterMarker cell -> a = Center) /\
    (~ isCenterMarker cell -> isLeftMarker cell -> a = Left) /\
    (~ isCenterMarker cell -> ~ isLeftMarker cell -> isRightMarker cell ->
     a = Right) /\
    (~ isCenterMarker cell -> ~ isLeftMarker cell -> ~ isRightMarker cell ->
     a = Left).
Proof.
  intros Hvalid Hcol. pose proof Hvalid as [Hlen _].
  destruct (validTable_row markdown 1 Hvalid) as (sepRow & Hsep & Hl); [lia|].
  destruct (nth_error sepRow col) as [cell|] eqn:Hcell.
  2:{ apply nth_error_None in Hcell. lia. }
  exists sepRow, cell, (alignmentOf cell).
  split; [exact Hsep|]. split; [exact Hcell|]. split.
  - unfold alignmentsOf. rewrite (nth_error_nth _ _ [] Hsep).
    now apply map_nth_error.
  - apply alignmentOf_spec.
Qed.

Lemma smallTable_valid : validTable smallTable.
Proof. split; [vm_compute; lia | reflexivity]. Qed.

Lemma colWidth_is_column_max_witness :
  exists w,
    nth_error (colWidthsOf (cleanedRowsOf (linesOf smallTable))) 0 = Some w /\
    (forall row cell,
        In row (cleanedRowsOf (linesOf smallTable)) ->
        nth_error row 0 = Some cell -> (len cell <= w)%Z) /\
    (exists row cell,
        In row (cleanedRowsOf (linesOf smallTable)) /\
        nth_error row 0 = Some cell /\ len cell = w) /\
    (exists sepRow sepText,
        nth_error (cleanedRowsOf (linesOf smallTable)) 1 = Some sepRow /\
        nth_error sepRow 0 = Some sepText /\ (len sepText <= w)%Z).
Proof.
  apply (colWidth_is_column_max smallTable 0).
  - split; [vm_compute; lia | reflexivity].
  - vm_compute. lia.
Defined.

Lemma alignment_inferred_from_separator_witness :
  exists sepRow cell a,
    nth_error (cleanedRowsOf (linesOf smallTable)) 1 = Some sepRow /\
    nth_error sepRow 1 = Some cell /\
    nth_error (alignmentsOf (cleanedRowsOf (linesOf smallTable))) 1 = Some a /\
    (isCenterMarker cell -> a = Center) /\
    (~ isCenterMarker cell -> isLeftMarker cell -> a = Left) /\
    (~ isCenterMarker cell -> ~ isLeftMarker cell -> isRightMarker cell ->
     a = Right) /\
    (~ isCenterMarker cell -> ~ isLeftMarker cell -> ~ isRightMarker cell ->
     a = Left).
Proof.
  apply (alignment_inferred_from_separator smallTable 1).
  - split; [vm_compute; lia | reflexivity].
  - vm_compute. lia.
Defined.

(** C10: on a valid table [formatMarkdownTable] returns a string whenever
    every column has a width of at least one, and every string it returns
    has as many lines as the trimmed input; in every row but row 1 the row
    has as many segments as the cleaned row has cells, and each segment, once
    trimmed, is the cleaned cell of the input at the same row and column. *)
Theorem format_preserves_cells (markdown : str) :
  validTable markdown ->
  ((forall col, col < colCountOf (cleanedRowsOf (linesOf markdown)) ->
      (1 <= nth col (colWidthsOf (cleanedRowsOf (linesOf markdown))) 0)%Z) ->
   exists r, formatMarkdownTable markdown = Normal r) /\
  forall r,
    formatMarkdownTable markdown = Normal r ->
    length (split nl (returned r)) = length (split nl (trim markdown)) /\
    forall rowIndex row col cell,
      rowIndex <> 1 ->
      nth_error (cleanedRowsOf (linesOf markdown)) rowIndex = Some row ->
      nth_error row col = Some cell ->
      exists line seg,
        nth_error (split nl (returned r)) rowIndex = Some line /\
        length (segments line) = length row /\
        nth_error (segments line) col = Some seg /\
        trim seg = cell.
Proof.
  intros Hvalid. split.
  { intros Hw. destruct (format_returns markdown Hvalid Hw) as (F & HF). eauto. }
  intros r Hfmt.
  destruct (format_valid_inv _ _ Hvalid Hfmt) as (F & HF & ->).
  simpl returned. rewrite (format_lines _ _ Hvalid HF).
  split.
  - apply mapi_from_length in HF. now rewrite cleanedRowsOf_length in HF.
  - intros rowIndex row col cell Hne Hrow Hcell.
    destruct (mapi_from_nth _ _ _ _ HF _ _ Hrow) as (line & Hline & Hf).
    simpl in Hf. apply formatRow_inv in Hf. destruct Hf as (cells & Hcells & ->).
    destruct (mapi_from_nth _ _ _ _ Hcells _ _ Hcell) as (y & Hy & Hfy).
    simpl in Hfy. apply (formatCell_data _ _ _ _ _ _ Hne) in Hfy.
    destruct Hfy as (l & rr & -> & _).
    assert (Hin : In row (cleanedRowsOf (linesOf markdown)))
      by (eapply nth_error_In; eauto).
    assert (Hseg : segments (lit "| " ++ join (lit " | ") cells ++ lit " |")
                   = map wrap cells).
    { apply segments_row.
      - intros ->. destruct col; discriminate.
      - refine (formatRow_cells_free _ _ pipe row _ cells _ _ _ _ Hcells);
          try discriminate.
        apply Forall_forall. intros c Hc.
        now apply (cleaned_cell_no_pipe (linesOf markdown) row). }
    eexists _, _. split; [exact Hline|]. rewrite Hseg.
    split; [rewrite length_map; now apply mapi_from_length in Hcells|].
    split; [apply map_nth_error; exact Hy|].
    unfold wrap.
    replace (space :: (repeat space l ++ cell ++ repeat space rr) ++ [space])
      with (repeat space (S l) ++ cell ++ (repeat space rr ++ [space]))
      by (simpl; now rewrite <- !app_assoc).
    apply trim_pad.
    + apply allWhite_spaces.
    + apply Forall_app. split; [apply allWhite_spaces | repeat constructor].
    + apply (cleaned_cell_trimmed (linesOf markdown) row);
        [assumption | eapply nth_error_In; eauto].
Qed.

Lemma format_preserves_cells_witness :
  validTable smallTable /\
  exists r,
    formatMarkdownTable smallTable = Normal r /\
    returned r = lit "|  a  | bb  |
| ---- | ---: |
|  1  | 22  |" /\
    length (split nl (returned r)) = length (split nl (trim smallTable)) /\
    forall rowIndex row col cell,
      rowIndex <> 1 ->
      nth_error (cleanedRowsOf (linesOf smallTable)) rowIndex = Some row ->
      nth_error row col = Some cell ->
      exists line seg,
        nth_error (split nl (returned r)) rowIndex = Some line /\
        length (segments line) = length row /\
        nth_error (segments line) col = Some seg /\
        trim seg = cell.
Proof.
  assert (Hv : validTable smallTable)
    by (split; [vm_compute; lia | reflexivity]).
  split; [exact Hv|].
  destruct (format_preserves_cells smallTable Hv) as [_ H].
  eexists. split; [vm_compute; reflexivity|]. split; [reflexivity|].
  apply H. vm_compute. reflexivity.
Defined.

(** C1 does not hold of the code.  On [smallTable] column 0 is centered
    and column 1 right-aligned, both of width 3; the rebuilt separator cells
    are four characters long, and the centered one is four dashes with no
    colon at either end. *)
Theorem separator_cells_of_smallTable :
  validTable smallTable /\
  alignmentsOf (cleanedRowsOf (linesOf smallTable)) = [Center; Right] /\
  colWidthsOf (cleanedRowsOf (linesOf smallTable)) = [3; 3]%Z /\
  sepCell Center 3 = Normal (lit "----") /\
  sepCell Right 3 = Normal (lit "---:") /\
  formatMarkdownTable smallTable
  = Normal (mkResult (lit "|  a  | bb  |
| ---- | ---: |
|  1  | 22  |") []).
Proof.
  split; [exact smallTable_valid|]. repeat split.
Qed.

(** C2 does not hold of the code.  On [narrowTable] the only column has
    width 1; its segment in the header row is three characters long and its
    segment in the separator row four. *)
Theorem segments_of_narrowTable :
  validTable narrowTable /\
  formatMarkdownTable narrowTable
  = Normal (mkResult (lit "| a |
| :- |") []) /\
  map segments (split nl (lit "| a |
| :- |")) = [[lit " a "]; [lit " :- "]] /\
  len (lit " a ") = 3%Z /\ len (lit " :- ") = 4%Z.
Proof.
  split; [split; [vm_compute; lia | reflexivity]|]. repeat split.
Qed.

(** C3 does not hold of the code.  Formatting [narrowTable] gives a table
    that formatting changes again: the column grows by one character at each
    pass. *)
Theorem format_twice_narrowTable :
  validTable narrowTable /\
  formatMarkdownTable narrowTable
  = Normal (mkResult (lit "| a |
| :- |") []) /\
  formatMarkdownTable (lit "| a |
| :- |")
  = Normal (mkResult (lit "| a  |
| :-- |") []) /\
  lit "| a  |
| :-- |" <> lit "| a |
| :- |".
Proof.
  split; [split; [vm_compute; lia | reflexivity]|].
  split; [reflexivity|]. split; [reflexivity|]. discriminate.
Qed.

(** C9 does not hold of the code.  [emptyColumnTable] is a valid table of
    one column whose cells are all empty; its width is 0, and rebuilding the
    separator cell throws a RangeError. *)
Theorem format_throws_on_emptyColumnTable :
  validTable emptyColumnTable /\
  cleanedRowsOf (linesOf emptyColumnTable) = [[[]]; [[]]] /\
  colWidthsOf (cleanedRowsOf (linesOf emptyColumnTable)) = [0%Z] /\
  formatMarkdownTable emptyColumnTable = Throw RangeError.
Proof.
  split; [split; [vm_compute; lia | reflexivity]|]. repeat split.
Qed.

(* ================================================================== *)
(** ** Properties of [generateMarkdownTable] *)

Lemma iter_ext {A : Type} (f g : A -> A) (n : nat) (x : A) :
  (forall y, f y = g y) -> Nat.iter n f x = Nat.iter n g x.
Proof. intros H. induction n; simpl; congruence. Qed.

Lemma concat_repeat_comm (p : str) (n : nat) :
  concat (repeat p n) ++ p = p ++ concat (repeat p n).
Proof.
  induction n; simpl; [now rewrite app_nil_r|].
  now rewrite <- app_assoc, IHn.
Qed.

Lemma iter_append (p : str) (n : nat) (table : str) :
  Nat.iter n (fun t => t ++ p) table = table ++ concat (repeat p n).
Proof.
  induction n; simpl; [now rewrite app_nil_r|].
  rewrite IHn, <- app_assoc. f_equal. apply concat_repeat_comm.
Qed.

Lemma forLoop_ext (lo hi : Z) (f g : str -> str) (table : str) :
  (forall t, f t = g t) -> forLoop lo hi f table = forLoop lo hi g table.
Proof. apply iter_ext. Qed.

Lemma forLoop_append (lo hi : Z) (p table : str) :
  forLoop lo hi (fun t => t ++ p) table
  = table ++ concat (repeat p (Z.to_nat (hi - lo))).
Proof. apply iter_append. Qed.

(** The table is the header row, the alignment row and [rows - 1] data
    rows, each followed by a newline. *)
Lemma generate_lines (rows cols alignment : arg) :
  generateMarkdownTable rows cols alignment
  = concat (map (fun l => l ++ [nl])
      (rowOf [space] (Z.to_nat (normalizeCount cols))
       :: rowOf (space :: alignCharOf alignment ++ [space])
                (Z.to_nat (normalizeCount cols))
       :: repeat (rowOf [space] (Z.to_nat (normalizeCount cols)))
                 (Z.to_nat (normalizeCount rows - 1)))).
Proof.
  unfold generateMarkdownTable.
  set (c := normalizeCount cols). set (r := normalizeCount rows).
  set (ac := alignCharOf alignment).
  rewrite (forLoop_ext 1 r _ (fun t => t ++ (rowOf [space] (Z.to_nat c) ++ [nl]))).
  2:{ intros t. rewrite forLoop_append. unfold rowOf.
      rewrite Z.sub_0_r, <- !app_assoc. reflexivity. }
  rewrite !forLoop_append, Z.sub_0_r.
  simpl concat. simpl map. unfold rowOf.
  rewrite <- !app_assoc. simpl.
  do 2 f_equal.
  replace (lit " " ++ ac ++ lit " |") with ((space :: ac ++ [space]) ++ [pipe])
    by (simpl; now rewrite <- app_assoc).
  f_equal. f_equal. f_equal. f_equal.
  induction (Z.to_nat (r - 1)) as [|n IH]; simpl; [reflexivity|].
  rewrite <- IH. rewrite <- !app_assoc. reflexivity.
Qed.

Lemma split_rowOf_tail (seg : str) (cols : nat) :
  ~ In pipe seg ->
  split pipe (concat (repeat (seg ++ [pipe]) cols)) = repeat seg cols ++ [[]].
Proof.
  intros H. induction cols as [|n IH]; simpl; [reflexivity|].
  rewrite <- app_assoc. simpl. rewrite split_app by assumption. now rewrite IH.
Qed.

Lemma segments_rowOf (seg : str) (cols : nat) :
  ~ In pipe seg -> segments (rowOf seg cols) = repeat seg cols.
Proof.
  intros H. unfold segments, rowOf.
  change (split pipe (pipe :: concat (repeat (seg ++ [pipe]) cols)))
    with ([] :: split pipe (concat (repeat (seg ++ [pipe]) cols))).
  rewrite split_rowOf_tail by assumption. simpl tl. apply removelast_last.
Qed.

Lemma rowOf_no_nl (seg : str) (cols : nat) :
  ~ In nl seg -> ~ In nl (rowOf seg cols).
Proof.
  intros H [E|Hin]; [discriminate|].
  apply in_concat in Hin. destruct Hin as (w & Hw & Hc).
  apply repeat_spec in Hw. subst w.
  apply in_app_iff in Hc. simpl in Hc.
  destruct Hc as [Hc|Hc]; [tauto | destruct Hc as [E|E]; [discriminate | exact E]].
Qed.

Lemma alignCharOf_cases (alignment : arg) :
  alignCharOf alignment = lit ":---" \/ alignCharOf alignment = lit "---:" \/
  alignCharOf alignment = lit ":---:".
Proof.
  unfold alignCharOf.
  destruct (str_eqb _ (lit "left")); [now left|].
  destruct (str_eqb _ (lit "right")); [right; now left | right; now right].
Qed.

Lemma markerSegment_clean (alignment : arg) :
  ~ In pipe (space :: alignCharOf alignment ++ [space]) /\
  ~ In nl (space :: alignCharOf alignment ++ [space]).
Proof.
  destruct (alignCharOf_cases alignment) as [ -> | [ -> | -> ] ];
    split; simpl; intuition discriminate.
Qed.

Lemma lines_end_with_nl (ls : list str) :
  ls <> [] -> exists s, concat (map (fun l => l ++ [nl]) ls) = s ++ [nl].
Proof.
  induction ls as [|x ls IH]; [congruence|]. intros _.
  destruct ls as [|y ls].
  - exists x. simpl. now rewrite app_nil_r.
  - destruct IH as (s & Hs); [discriminate|].
    exists ((x ++ [nl]) ++ s).
    change (concat (map (fun l => l ++ [nl]) (x :: y :: ls)))
      with ((x ++ [nl]) ++ concat (map (fun l => l ++ [nl]) (y :: ls))).
    rewrite Hs. now rewrite app_assoc.
Qed.

Lemma normalizeCount_positive (a : arg) (z : Z) :
  parseIntArg a = Some z -> (1 <= z)%Z -> normalizeCount a = z.
Proof.
  intros H Hz. unfold normalizeCount. rewrite H.
  destruct z; simpl; lia.
Qed.

Lemma digit_not_white (c : char) : (48 <= c <= 57)%N -> isWhiteSpace c = false.
Proof.
  intros H. unfold isWhiteSpace.
  repeat match goal with
         | |- context [N.eqb c ?k] => destruct (N.eqb_spec c k); [lia|]
         end.
  destruct (N.leb_spec 8192 c); [lia|]. reflexivity.
Qed.

Lemma digitValue_decimal (c : char) :
  (48 <= c <= 57)%N -> digitValue c = Some (Z.of_N c - 48)%Z.
Proof.
  intros H. unfold digitValue.
  destruct (N.leb_spec 48 c); [|lia]. destruct (N.leb_spec c 57); [|lia].
  reflexivity.
Qed.

Lemma digits_decimal (s : str) :
  Forall (fun c => (48 <= c <= 57)%N) s ->
  forall a, digits 10 s (Some a)
            = Some (fold_left (fun a c => (a * 10 + (Z.of_N c - 48))%Z) s a).
Proof.
  induction 1 as [|c s Hc _ IH]; intros a; simpl; [reflexivity|].
  rewrite (digitValue_decimal c Hc).
  destruct (Z.ltb_spec (Z.of_N c - 48) 10); [|lia]. apply IH.
Qed.

Lemma digits_decimal_start (s : str) :
  isDecimal s -> digits 10 s None = Some (decimalValue s).
Proof.
  intros [Hne HF]. destruct s as [|c s]; [congruence|].
  inversion HF as [|? ? Hc HF']; subst. simpl.
  rewrite (digitValue_decimal c Hc).
  destruct (Z.ltb_spec (Z.of_N c - 48) 10); [|lia].
  rewrite (digits_decimal s HF'). reflexivity.
Qed.

Lemma hex_prefix_absent (s : str) :
  Forall (fun c => (48 <= c <= 57)%N) s ->
  match s with
  | c0 :: x :: r =>
      if ((c0 =? 48) && ((x =? 120) || (x =? 88)))%N then (16%Z, r) else (10%Z, s)
  | _ => (10%Z, s)
  end = (10%Z, s).
Proof.
  intros HF. destruct s as [|c0 [|x r]]; try reflexivity.
  inversion HF as [|? ? _ HF']; subst. inversion HF' as [|? ? Hx _]; subst.
  destruct (N.eqb_spec x 120); [lia|]. destruct (N.eqb_spec x 88); [lia|].
  now rewrite andb_false_r.
Qed.

(** [parseInt] reads a decimal numeral as the number it denotes. *)
Lemma parseInt_decimal (s : str) :
  isDecimal s -> parseInt s = Some (decimalValue s).
Proof.
  intros Hd. pose proof Hd as [Hne HF].
  destruct s as [|c s']; [congruence|].
  assert (Hc : (48 <= c <= 57)%N) by (inversion HF; assumption).
  unfold parseInt. simpl trimStart. rewrite (digit_not_white c Hc).
  destruct (N.eqb_spec c 45); [lia|]. destruct (N.eqb_spec c 43); [lia|].
  rewrite (hex_prefix_absent _ HF), (digits_decimal_start _ Hd).
  simpl. f_equal. destruct (decimalValue (c :: s')); reflexivity.
Qed.

(** ... and a decimal numeral after a minus sign as its opposite. *)
Lemma parseInt_minus_decimal (s : str) :
  isDecimal s -> parseInt (45%N :: s) = Some (- decimalValue s)%Z.
Proof.
  intros Hd. pose proof Hd as [Hne HF].
  unfold parseInt. simpl trimStart. simpl.
  rewrite (hex_prefix_absent _ HF), (digits_decimal_start _ Hd).
  simpl. destruct (decimalValue s); reflexivity.
Qed.

(** Every negative decimal numeral gives the count 1. *)
Lemma normalizeCount_negative_numeral (s : str) :
  isDecimal s -> (0 < decimalValue s)%Z ->
  normalizeCount (Some (45%N :: s)) = 1%Z.
Proof.
  intros Hd Hpos. unfold normalizeCount, parseIntArg.
  rewrite (parseInt_minus_decimal s Hd).
  destruct (decimalValue s); simpl; lia.
Qed.

Example parseInt_examples :
  parseInt (lit " 42") = Some 42%Z /\ parseInt (lit "-5") = Some (-5)%Z /\
  parseInt (lit "+7") = Some 7%Z /\ parseInt (lit "12px") = Some 12%Z /\
  parseInt (lit "3.7") = Some 3%Z /\ parseInt (lit "0x1F") = Some 31%Z /\
  parseInt (lit "0") = Some 0%Z /\ parseInt (lit "abc") = None /\
  parseInt (lit "") = None /\ parseInt (lit "-") = None.
Proof. repeat split. Qed.

(** C7: when the row and column arguments parse to [rows >= 1] and
    [cols >= 1] and the alignment is one of left, right and center,
    [generateMarkdownTable] returns a header line of [cols] blank segments, a
    separator line of [cols] segments holding the marker of the alignment
    ([:---], [---:] or [:---:]), and [rows - 1] data lines equal to the
    header, [rows + 1] lines in all, each followed by a newline and each of
    exactly [cols] segments; the string ends with a newline. *)
Theorem generate_lines_and_segments
    (rowsArg colsArg alignArg : arg) (rows cols : Z) :
  parseIntArg rowsArg = Some rows -> (1 <= rows)%Z ->
  parseIntArg colsArg = Some cols -> (1 <= cols)%Z ->
  alignArg = Some (lit "left") \/ alignArg = Some (lit "right") \/
  alignArg = Some (lit "center") ->
  exists header separator data,
    generateMarkdownTable rowsArg colsArg alignArg
    = concat (map (fun l => l ++ [nl]) (header :: separator :: data)) /\
    header = rowOf (lit " ") (Z.to_nat cols) /\
    segments header = repeat (lit " ") (Z.to_nat cols) /\
    (alignArg = Some (lit "left") ->
     separator = rowOf (lit " :--- ") (Z.to_nat cols) /\
     segments separator = repeat (lit " :--- ") (Z.to_nat cols)) /\
    (alignArg = Some (lit "right") ->
     separator = rowOf (lit " ---: ") (Z.to_nat cols) /\
     segments separator = repeat (lit " ---: ") (Z.to_nat cols)) /\
    (alignArg = Some (lit "center") ->
     separator = rowOf (lit " :---: ") (Z.to_nat cols) /\
     segments separator = repeat (lit " :---: ") (Z.to_nat cols)) /\
    data = repeat header (Z.to_nat (rows - 1)) /\
    Z.of_nat (length data) = (rows - 1)%Z /\
    Z.of_nat (length (header :: separator :: data)) = (rows + 1)%Z /\
    Forall (fun l => ~ In nl l /\ Z.of_nat (length (segments l)) = cols)
           (header :: separator :: data) /\
    exists s, generateMarkdownTable rowsArg colsArg alignArg = s ++ [nl].
Proof.
  intros Hr Hr1 Hc Hc1 _.
  pose proof (generate_lines rowsArg colsArg alignArg) as G.
  rewrite (normalizeCount_positive _ _ Hr Hr1) in G.
  rewrite (normalizeCount_positive _ _ Hc Hc1) in G.
  destruct (markerSegment_clean alignArg) as [Mp Mn].
  assert (Sp : ~ In pipe [space]) by (simpl; intuition discriminate).
  assert (Sn : ~ In nl [space]) by (simpl; intuition discriminate).
  eexists _, _, _. split; [exact G|].
  split; [reflexivity|].
  split; [now apply segments_rowOf|].
  split.
  { intros ->. split; [reflexivity|].
    apply (segments_rowOf (lit " :--- ")). simpl. intuition discriminate. }
  split.
  { intros ->. split; [reflexivity|].
    apply (segments_rowOf (lit " ---: ")). simpl. intuition discriminate. }
  split.
  { intros ->. split; [reflexivity|].
    apply (segments_rowOf (lit " :---: ")). simpl. intuition discriminate. }
  split; [reflexivity|].
  split; [rewrite repeat_length; lia|].
  split; [simpl length; rewrite repeat_length; lia|].
  split.
  - constructor; [|constructor].
    + split; [now apply rowOf_no_nl|].
      rewrite segments_rowOf, repeat_length by assumption. lia.
    + split; [now apply rowOf_no_nl|].
      rewrite segments_rowOf, repeat_length by assumption. lia.
    + apply Forall_forall. intros l Hl. apply repeat_spec in Hl. subst l.
      split; [now apply rowOf_no_nl|].
      rewrite segments_rowOf, repeat_length by assumption. lia.
  - rewrite G. apply lines_end_with_nl. discriminate.
Qed.

Lemma generate_lines_and_segments_witness :
  exists header separator data,
    generateMarkdownTable (Some (lit "3")) (Some (lit "2")) (Some (lit "left"))
    = concat (map (fun l => l ++ [nl]) (header :: separator :: data)) /\
    header = lit "| | |" /\
    segments header = [lit " "; lit " "] /\
    separator = lit "| :--- | :--- |" /\
    segments separator = [lit " :--- "; lit " :--- "] /\
    data = [header; header] /\
    Z.of_nat (length data) = (3 - 1)%Z /\
    Z.of_nat (length (header :: separator :: data)) = (3 + 1)%Z /\
    Forall (fun l => ~ In nl l /\ Z.of_nat (length (segments l)) = 2%Z)
           (header :: separator :: data) /\
    exists s, generateMarkdownTable (Some (lit "3")) (Some (lit "2"))
                (Some (lit "left")) = s ++ [nl].
Proof.
  destruct (generate_lines_and_segments
              (Some (lit "3")) (Some (lit "2")) (Some (lit "left")) 3 2)
    as (header & separator & data & G & Hh & Hsh & Hl & _ & _ & Hd & Hld & Hlen
        & HF & Hend).
  - reflexivity.
  - lia.
  - reflexivity.
  - lia.
  - left. reflexivity.
  - destruct (Hl eq_refl) as [Hs Hss].
    exists header, separator, data.
    split; [exact G|]. split; [exact Hh|]. split; [exact Hsh|].
    split; [exact Hs|]. split; [exact Hss|].
    split; [rewrite Hd; reflexivity|].
    split; [exact Hld|]. split; [exact Hlen|]. split; [exact HF | exact Hend].
Defined.

Example generate_2_2_left :
  generateMarkdownTable (Some (lit "2")) (Some (lit "2")) (Some (lit "left"))
  = lit "| | |
| :--- | :--- |
| | |
".
Proof. reflexivity. Qed.

(** C8 does not hold as stated: a negative count is not replaced by the
    default 2.  [parseInt("-5")] is [-5], which is truthy, so [-5 || 2] is
    [-5] and the count becomes [Math.max(1, -5) = 1]. *)
Lemma negative_count_not_defaulted :
  parseIntArg (Some (lit "-5")) = Some (-5)%Z /\
  orDefault (parseIntArg (Some (lit "-5"))) 2 <> 2%Z /\
  normalizeCount (Some (lit "-5")) = 1%Z.
Proof. repeat split. discriminate. Qed.

(** C8, amended: the count is at least 1; it is the default 2 when the
    argument is missing, does not parse to a number, or parses to 0; it is 1
    when the argument parses to a negative number, which the default does not
    replace; it is the parsed number when that is positive. *)
Theorem normalizeCount_cases (a : arg) :
  (1 <= normalizeCount a)%Z /\
  (a = None -> normalizeCount a = 2%Z) /\
  (parseIntArg a = None -> normalizeCount a = 2%Z) /\
  (parseIntArg a = Some 0%Z -> normalizeCount a = 2%Z) /\
  (forall z, parseIntArg a = Some z -> (z < 0)%Z ->
             orDefault (parseIntArg a) 2 = z /\ normalizeCount a = 1%Z) /\
  (forall z, parseIntArg a = Some z -> (0 < z)%Z -> normalizeCount a = z).
Proof.
  unfold normalizeCount. split; [lia|].
  split; [intros ->; reflexivity|].
  split; [intros ->; reflexivity|].
  split; [intros ->; reflexivity|].
  split; intros z -> Hz; destruct z; simpl; lia.
Qed.

Lemma normalizeCount_cases_witness :
  normalizeCount (Some (lit "-5")) = 1%Z /\
  normalizeCount (Some (lit "abc")) = 2%Z /\
  normalizeCount (Some (lit "0")) = 2%Z /\
  normalizeCount None = 2%Z /\
  normalizeCount (Some (lit "7")) = 7%Z.
Proof.
  split.
  { destruct (normalizeCount_cases (Some (lit "-5"))) as (_ & _ & _ & _ & H & _).
    apply (H (-5)%Z); [reflexivity | lia]. }
  split.
  { destruct (normalizeCount_cases (Some (lit "abc"))) as (_ & _ & H & _).
    apply H. reflexivity. }
  split.
  { destruct (normalizeCount_cases (Some (lit "0"))) as (_ & _ & _ & H & _).
    apply H. reflexivity. }
  split.
  { destruct (normalizeCount_cases None) as (_ & H & _). apply H. reflexivity. }
  destruct (normalizeCount_cases (Some (lit "7"))) as (_ & _ & _ & _ & _ & H).
  apply (H 7%Z); [reflexivity | lia].
Defined.

(* ================================================================== *)
(** ** Further properties of [formatMarkdownTable] *)

(** X1: a text that, once trimmed, has no line break is returned as it is,
    surrounding white space included, and nothing is logged. *)
Theorem format_single_line_unchanged (markdown : str) :
  ~ In nl (trim markdown) ->
  formatMarkdownTable markdown = Normal (mkResult markdown []).
Proof.
  intros H. unfold formatMarkdownTable, linesOf.
  rewrite (split_free nl _ H). reflexivity.
Qed.

Lemma format_single_line_unchanged_witness :
  ~ In nl (trim (lit "  | a | b |  ")) /\
  formatMarkdownTable (lit "  | a | b |  ")
  = Normal (mkResult (lit "  | a | b |  ") []).
Proof.
  assert (H : ~ In nl (trim (lit "  | a | b |  "))).
  { vm_compute. intuition discriminate. }
  split; [exact H|]. exact (format_single_line_unchanged _ H).
Defined.

Lemma trimmed_ends (s : str) :
  (forall c rest, s = c :: rest -> isWhiteSpace c = false) ->
  (forall c init, s = init ++ [c] -> isWhiteSpace c = false) ->
  trimmed s.
Proof.
  intros Hhd Hlast. split; apply trimStart_fix.
  - destruct s as [|c rest]; [exact I | eauto].
  - destruct (rev s) as [|c r] eqn:E; [exact I|].
    apply (Hlast c (rev r)).
    rewrite <- (rev_involutive s), E. reflexivity.
Qed.

Lemma framed_trimmed (s : str) : framed s -> trimmed s.
Proof.
  intros (m & ->). apply trimmed_ends.
  - intros c rest E. inversion E. reflexivity.
  - intros c init E.
    change (pipe :: m ++ [pipe]) with ((pipe :: m) ++ [pipe]) in E.
    apply app_inj_tail in E. destruct E as [_ <-]. reflexivity.
Qed.

Lemma join_framed (l : list str) :
  l <> [] -> Forall framed l -> framed (join [nl] l).
Proof.
  induction l as [|x l IH]; [congruence|]. intros _ HF.
  inversion HF as [|? ? (m & ->) HF']; subst.
  destruct l as [|y l]; [exists m; reflexivity|].
  destruct IH as (m' & Hm'); [discriminate | assumption|].
  rewrite join_cons by discriminate. rewrite Hm'.
  exists (m ++ [pipe] ++ [nl] ++ pipe :: m').
  simpl. f_equal. rewrite <- !app_assoc. reflexivity.
Qed.

Lemma row_line_framed (cells : list str) :
  framed (lit "| " ++ join (lit " | ") cells ++ lit " |").
Proof.
  exists (space :: join (lit " | ") cells ++ [space]).
  simpl. do 2 f_equal. rewrite <- app_assoc. reflexivity.
Qed.

Section MapiMap.
Context {A B C : Type} (f : A -> nat -> completion B) (g : B -> C) (h : A -> C).

(** When the callback returns [y] on [x] only if [g y = h x], mapping [g]
    over the results is mapping [h] over the arguments. *)
Lemma mapi_from_map (l : list A) :
  forall i ys, mapi_from i f l = Normal ys ->
  (forall k x y, nth_error l k = Some x -> f x (i + k) = Normal y -> g y = h x) ->
  map g ys = map h l.
Proof.
  induction l as [|x l IH]; intros i ys H Hg.
  - inversion H. reflexivity.
  - apply mapi_from_inv in H. destruct H as (y & ys' & -> & Hy & H).
    simpl. f_equal.
    + apply (Hg 0 x y); [reflexivity | now rewrite Nat.add_0_r].
    + apply (IH (S i)); [assumption|].
      intros k a b Hk Hf. apply (Hg (S k) a b); [assumption|].
      now rewrite Nat.add_succ_r.
Qed.
End MapiMap.

(** The two runs of spaces around a padded cell: the left one is half the
    free room, rounded down, the right one the rest. *)
Lemma padCell_exact (text : str) (width : Z) (s : str) :
  padCell text width = Normal s ->
  (len text <= width)%Z /\
  s = repeat space (Z.to_nat ((width - len text) / 2)) ++ text ++
      repeat space (Z.to_nat (width - len text - (width - len text) / 2)).
Proof.
  unfold padCell. intros H.
  destruct (repeat_ [space] ((width - len text) / 2)) as [l|] eqn:El;
    simpl in H; [|discriminate].
  destruct (repeat_ [space] (width - len text - (width - len text) / 2))
    as [r|] eqn:Er; simpl in H; [|discriminate].
  inversion H; subst s; clear H.
  apply repeat_inv in El, Er. destruct El as [Hl ->], Er as [Hr ->].
  split; [lia | reflexivity].
Qed.

(** The rebuilt separator cell, for the widths on which it is built. *)
Lemma sepCell_exact (a : alignment) (n : Z) (s : str) :
  sepCell a n = Normal s ->
  (1 <= n)%Z /\ s = separatorMarker a (Z.to_nat n).
Proof.
  unfold sepCell. intros H.
  destruct (repeat_ [dash] _) as [l|] eqn:El in H; simpl in H; [|discriminate].
  destruct (repeat_ [dash] _) as [r|] eqn:Er in H; simpl in H; [|discriminate].
  inversion H; subst s; clear H.
  apply repeat_inv in El, Er. destruct El as [Hl ->], Er as [Hr ->].
  destruct a.
  - split; [lia|]. simpl. rewrite Z.sub_0_r.
    replace (Z.to_nat n) with (S (Z.to_nat (n - 1))) by lia. reflexivity.
  - assert (0 <= (n - 1) / 2)%Z by assumption.
    assert (1 <= n)%Z.
    { destruct (Z.lt_ge_cases n 1) as [Hn|Hn]; [|lia].
      assert ((n - 1) / 2 < 0)%Z by (apply Z.div_lt_upper_bound; lia). lia. }
    split; [assumption|]. unfold separatorMarker.
    replace (S (Z.to_nat n))
      with (S (Z.to_nat ((n - 1) / 2)) + S (Z.to_nat (n - 1 - (n - 1) / 2)))
      by lia.
    rewrite repeat_app. reflexivity.
  - split; [lia|]. unfold separatorMarker.
    replace (n - 1 - (n - 1))%Z with 0%Z by lia.
    replace (Z.to_nat n) with (S (Z.to_nat (n - 1))) by lia.
    reflexivity.
Qed.

(** Where a rendered cell ends up: the cell at row [i], column [j] of a
    valid table is rendered by [formatCell], and the result, between two
    spaces, is segment [j] of line [i] of the returned string. *)
Lemma format_segment_at (markdown : str) (r : result)
      (i j : nat) (row : list str) (cell : str) :
  validTable markdown ->
  formatMarkdownTable markdown = Normal r ->
  nth_error (cleanedRowsOf (linesOf markdown)) i = Some row ->
  nth_error row j = Some cell ->
  exists line y,
    nth_error (split nl (returned r)) i = Some line /\
    nth_error (segments line) j = Some (wrap y) /\
    formatCell (alignmentsOf (cleanedRowsOf (linesOf markdown)))
               (colWidthsOf (cleanedRowsOf (linesOf markdown))) i cell j
    = Normal y.
Proof.
  intros Hvalid Hfmt Hrow Hcell.
  destruct (format_valid_inv _ _ Hvalid Hfmt) as (F & HF & ->).
  simpl returned. rewrite (format_lines _ _ Hvalid HF).
  destruct (mapi_from_nth _ _ _ _ HF _ _ Hrow) as (line & Hline & Hf).
  simpl in Hf. apply formatRow_inv in Hf. destruct Hf as (cells & Hcells & ->).
  destruct (mapi_from_nth _ _ _ _ Hcells _ _ Hcell) as (y & Hy & Hfy).
  simpl in Hfy.
  assert (Hin : In row (cleanedRowsOf (linesOf markdown)))
    by (eapply nth_error_In; eauto).
  exists (lit "| " ++ join (lit " | ") cells ++ lit " |"), y.
  split; [exact Hline|]. split; [|exact Hfy].
  rewrite segments_row.
  - apply map_nth_error. exact Hy.
  - intros ->. destruct j; discriminate.
  - refine (formatRow_cells_free _ _ pipe row _ cells _ _ _ _ Hcells);
      try discriminate.
    apply Forall_forall. intros c Hc.
    now apply (cleaned_cell_no_pipe (linesOf markdown) row).
Qed.

(** X2: in the returned table a header or data cell sits in the middle of
    its segment, whatever the alignment of the column: after the framing
    space come half of the free room in spaces (rounded down), the cell
    text, and the rest of the free room, so the right run is as long as the
    left one or one longer, and the three together fill the column width. *)
Theorem data_cells_are_centered (markdown : str) (r : result)
      (i j : nat) (row : list str) (cell : str) :
  validTable markdown ->
  formatMarkdownTable markdown = Normal r ->
  i <> 1 ->
  nth_error (cleanedRowsOf (linesOf markdown)) i = Some row ->
  nth_error row j = Some cell ->
  exists line l rr,
    nth_error (split nl (returned r)) i = Some line /\
    nth_error (segments line) j
    = Some (space :: (repeat space l ++ cell ++ repeat space rr) ++ [space]) /\
    Z.of_nat (l + length cell + rr)
    = nth j (colWidthsOf (cleanedRowsOf (linesOf markdown))) 0%Z /\
    l <= rr <= l + 1.
Proof.
  intros Hvalid Hfmt Hne Hrow Hcell.
  destruct (format_segment_at _ _ _ _ _ _ Hvalid Hfmt Hrow Hcell)
    as (line & y & Hline & Hseg & Hy).
  unfold formatCell in Hy. destruct (Nat.eqb_spec i 1); [contradiction|].
  apply padCell_exact in Hy. destruct Hy as [Hle ->].
  set (w := nth j (colWidthsOf (cleanedRowsOf (linesOf markdown))) 0%Z) in *.
  exists line, (Z.to_nat ((w - len cell) / 2)),
    (Z.to_nat (w - len cell - (w - len cell) / 2)).
  split; [exact Hline|]. split; [exact Hseg|].
  unfold len in *. split; Z.div_mod_to_equations; lia.
Qed.

(** X3: in the returned table the separator segment of a column of width
    [w] and alignment [a] is, between two spaces, a colon and [w] dashes for
    left, [w] dashes and a colon for right, and [w + 1] dashes for center;
    the width is at least one. *)
Theorem separator_segments (markdown : str) (r : result) (j : nat) :
  validTable markdown ->
  formatMarkdownTable markdown = Normal r ->
  j < colCountOf (cleanedRowsOf (linesOf markdown)) ->
  exists line,
    nth_error (split nl (returned r)) 1 = Some line /\
    (1 <= nth j (colWidthsOf (cleanedRowsOf (linesOf markdown))) 0)%Z /\
    nth_error (segments line) j
    = Some (wrap (separatorMarker
                    (nth j (alignmentsOf (cleanedRowsOf (linesOf markdown))) Left)
                    (Z.to_nat (nth j (colWidthsOf (cleanedRowsOf (linesOf markdown))) 0%Z)))).
Proof.
  intros Hvalid Hfmt Hj. pose proof Hvalid as [Hlen _].
  destruct (validTable_row markdown 1 Hvalid) as (sepRow & Hsep & Hl); [lia|].
  destruct (nth_error sepRow j) as [cell|] eqn:Hcell.
  2:{ apply nth_error_None in Hcell. lia. }
  destruct (format_segment_at _ _ _ _ _ _ Hvalid Hfmt Hsep Hcell)
    as (line & y & Hline & Hseg & Hy).
  unfold formatCell in Hy. simpl in Hy.
  apply sepCell_exact in Hy. destruct Hy as [Hw ->].
  exists line. auto.
Qed.

Lemma data_cells_are_centered_witness :
  exists line l rr,
    nth_error (split nl (lit "|  a  | bb  |
| ---- | ---: |
|  1  | 22  |")) 2 = Some line /\
    nth_error (segments line) 1
    = Some (space :: (repeat space l ++ lit "22" ++ repeat space rr) ++ [space]) /\
    Z.of_nat (l + length (lit "22") + rr)
    = nth 1 (colWidthsOf (cleanedRowsOf (linesOf smallTable))) 0%Z /\
    l <= rr <= l + 1.
Proof.
  apply (data_cells_are_centered smallTable
           (mkResult (lit "|  a  | bb  |
| ---- | ---: |
|  1  | 22  |") []) 2 1 [lit "1"; lit "22"] (lit "22")).
  - split; [vm_compute; lia | reflexivity].
  - reflexivity.
  - discriminate.
  - reflexivity.
  - reflexivity.
Defined.

Lemma separator_segments_witness :
  exists line,
    nth_error (split nl (lit "|  a  | bb  |
| ---- | ---: |
|  1  | 22  |")) 1 = Some line /\
    (1 <= nth 0 (colWidthsOf (cleanedRowsOf (linesOf smallTable))) 0)%Z /\
    nth_error (segments line) 0
    = Some (wrap (separatorMarker
                    (nth 0 (alignmentsOf (cleanedRowsOf (linesOf smallTable))) Left)
                    (Z.to_nat (nth 0 (colWidthsOf (cleanedRowsOf (linesOf smallTable))) 0%Z)))).
Proof.
  apply (separator_segments smallTable
           (mkResult (lit "|  a  | bb  |
| ---- | ---: |
|  1  | 22  |") []) 0).
  - split; [vm_compute; lia | reflexivity].
  - reflexivity.
  - vm_compute. lia.
Defined.

Lemma widths_search (n : nat) (w : nat -> Z) :
  (forall col, col < n -> (1 <= w col)%Z) \/
  (exists col, col < n /\ (w col <= 0)%Z).
Proof.
  induction n as [|n [IH|(col & Hcol & Hw)]].
  - left. intros col H. lia.
  - destruct (Z_lt_le_dec 0 (w n)) as [Hpos|Hle].
    + left. intros col H.
      destruct (Nat.eq_dec col n) as [->|Hne]; [lia | apply IH; lia].
    + right. exists n. split; [lia | assumption].
  - right. exists col. split; [lia | assumption].
Qed.

(** X4: on a valid table [formatMarkdownTable] throws exactly when some
    column has only empty cells, separator cell included; the exception is
    the RangeError of [repeat]. *)
Theorem format_throws_iff_empty_column (markdown : str) :
  validTable markdown ->
  (formatMarkdownTable markdown = Throw RangeError <->
   exists col,
     col < colCountOf (cleanedRowsOf (linesOf markdown)) /\
     forall row cell,
       In row (cleanedRowsOf (linesOf markdown)) ->
       nth_error row col = Some cell -> cell = []).
Proof.
  intros Hvalid. pose proof Hvalid as [Hlen Hv].
  set (rows := cleanedRowsOf (linesOf markdown)) in *.
  split.
  - intros Hthrow.
    destruct (widths_search (colCountOf rows)
                (fun col => nth col (colWidthsOf rows) 0%Z)) as [Hall|(col & Hcol & Hw)].
    + destruct (format_returns markdown Hvalid Hall) as (F & HF).
      rewrite HF in Hthrow. discriminate.
    + exists col. split; [exact Hcol|]. intros row cell Hin Hcell.
      pose proof (colWidth_ge rows row col cell Hcol Hin Hcell) as L.
      unfold len in L. destruct cell; [reflexivity | simpl in L; lia].
  - intros (col & Hcol & Hempty).
    apply (format_throws markdown col Hvalid Hcol). fold rows.
    rewrite colWidth_nth by assumption.
    assert (Hne : map (fun row => len (nth col row [])) rows <> []).
    { intros E. apply map_eq_nil in E.
      assert (L : length rows = 0) by now rewrite E.
      unfold rows in L. rewrite cleanedRowsOf_length in L. lia. }
    apply Math_max_in in Hne. apply in_map_iff in Hne.
    destruct Hne as (row & Hrow & Hin). rewrite <- Hrow.
    assert (Hc : nth_error row col = Some (nth col row [])).
    { apply nth_error_nth'.
      pose proof (isValid_length rows row Hv Hin) as L.
      unfold str in *. lia. }
    rewrite (Hempty row _ Hin Hc). reflexivity.
Qed.

Lemma format_throws_iff_empty_column_witness :
  formatMarkdownTable emptySecondColumn = Throw RangeError <->
  exists col,
    col < colCountOf (cleanedRowsOf (linesOf emptySecondColumn)) /\
    forall row cell,
      In row (cleanedRowsOf (linesOf emptySecondColumn)) ->
      nth_error row col = Some cell -> cell = [].
Proof.
  apply (format_throws_iff_empty_column emptySecondColumn).
  split; [vm_compute; lia | reflexivity].
Defined.

(** Parsing a rendered row gives its cells back, trimmed. *)
Lemma reparse_line (cells : list str) :
  cells <> [] -> Forall (fun c => ~ In pipe c) cells ->
  cleanRow (parseRow (lit "| " ++ join (lit " | ") cells ++ lit " |"))
  = map (fun c => trim (wrap c)) cells.
Proof.
  intros Hne HF. unfold parseRow.
  rewrite (trim_fix _ (framed_trimmed _ (row_line_framed cells))).
  change (lit "| " ++ join (lit " | ") cells ++ lit " |")
    with (pipe :: space :: join [space; pipe; space] cells ++ [space; pipe]).
  change (split pipe (pipe :: space :: join [space; pipe; space] cells ++ [space; pipe]))
    with ([] :: split pipe (space :: join [space; pipe; space] cells ++ [space; pipe])).
  rewrite split_row_tail by assumption.
  simpl map. rewrite map_app, map_map. simpl map.
  change (trim []) with (@nil char).
  unfold cleanRow. simpl shiftEmpty. apply popEmpty_snoc.
Qed.

Lemma format_rows_framed (markdown : str) (formattedRows : list str) :
  mapi (formatRow (alignmentsOf (cleanedRowsOf (linesOf markdown)))
                  (colWidthsOf (cleanedRowsOf (linesOf markdown))))
       (cleanedRowsOf (linesOf markdown)) = Normal formattedRows ->
  Forall framed formattedRows.
Proof.
  intros H. apply (mapi_from_Forall _ _ _ _ _ H). intros k row line _ Hline.
  apply formatRow_inv in Hline. destruct Hline as (cells & _ & ->).
  apply row_line_framed.
Qed.

(** The lines the parser sees in the returned string are the rendered
    rows. *)
Lemma format_output_lines (markdown : str) (formattedRows : list str) :
  validTable markdown ->
  mapi (formatRow (alignmentsOf (cleanedRowsOf (linesOf markdown)))
                  (colWidthsOf (cleanedRowsOf (linesOf markdown))))
       (cleanedRowsOf (linesOf markdown)) = Normal formattedRows ->
  linesOf (join [nl] formattedRows) = formattedRows.
Proof.
  intros Hvalid H. unfold linesOf.
  rewrite trim_fix; [now apply (format_lines markdown)|].
  apply framed_trimmed, join_framed; [|now apply (format_rows_framed markdown)].
  destruct Hvalid as [Hlen _].
  apply mapi_from_length in H. rewrite cleanedRowsOf_length in H.
  intros ->. simpl in H. lia.
Qed.

(** The grid parsed from the returned string, row by row: the rendered
    cells of the row, each between two spaces and trimmed. *)
Lemma reparse_rows (markdown : str) (r : result) :
  validTable markdown ->
  1 <= colCountOf (cleanedRowsOf (linesOf markdown)) ->
  formatMarkdownTable markdown = Normal r ->
  length (cleanedRowsOf (linesOf (returned r)))
  = length (cleanedRowsOf (linesOf markdown)) /\
  forall i row,
    nth_error (cleanedRowsOf (linesOf markdown)) i = Some row ->
    exists cells,
      mapi (formatCell (alignmentsOf (cleanedRowsOf (linesOf markdown)))
                       (colWidthsOf (cleanedRowsOf (linesOf markdown))) i) row
      = Normal cells /\
      nth_error (cleanedRowsOf (linesOf (returned r))) i
      = Some (map (fun c => trim (wrap c)) cells).
Proof.
  intros Hvalid Hcols Hfmt. pose proof Hvalid as [Hlen Hv].
  destruct (format_valid_inv _ _ Hvalid Hfmt) as (F & HF & ->).
  simpl returned. rewrite (format_output_lines _ _ Hvalid HF).
  split.
  - rewrite cleanedRowsOf_length. now apply mapi_from_length in HF.
  - intros i row Hrow.
    destruct (mapi_from_nth _ _ _ _ HF _ _ Hrow) as (line & Hline & Hf).
    simpl in Hf. apply formatRow_inv in Hf. destruct Hf as (cells & Hcells & ->).
    exists cells. split; [exact Hcells|].
    assert (Hin : In row (cleanedRowsOf (linesOf markdown)))
      by (eapply nth_error_In; eauto).
    unfold cleanedRowsOf at 1. rewrite map_map.
    rewrite (map_nth_error _ _ _ Hline). f_equal.
    apply reparse_line.
    + pose proof (mapi_from_length _ _ _ _ Hcells) as L.
      pose proof (isValid_length _ _ Hv Hin) as L'.
      intros ->. simpl in L. unfold str in *. lia.
    + refine (formatRow_cells_free _ _ pipe row _ cells _ _ _ _ Hcells);
        try discriminate.
      apply Forall_forall. intros c Hc.
      now apply (cleaned_cell_no_pipe (linesOf markdown) row).
Qed.

Lemma trim_wrap_padded (l rr : nat) (cell : str) :
  trimmed cell ->
  trim (wrap (repeat space l ++ cell ++ repeat space rr)) = cell.
Proof.
  intros Ht. unfold wrap.
  replace (space :: (repeat space l ++ cell ++ repeat space rr) ++ [space])
    with (repeat space (S l) ++ cell ++ (repeat space rr ++ [space]))
    by (simpl; now rewrite <- !app_assoc).
  apply trim_pad; [apply allWhite_spaces | | assumption].
  apply Forall_app. split; [apply allWhite_spaces | repeat constructor].
Qed.

Lemma separatorMarker_trimmed (a : alignment) (n : nat) :
  trimmed (separatorMarker a n).
Proof.
  apply trimmed_ends.
  - intros c rest E. destruct a; simpl in E.
    + inversion E. reflexivity.
    + inversion E. reflexivity.
    + destruct n; inversion E; reflexivity.
  - intros c init E.
    assert (Hc : In c (separatorMarker a n))
      by (rewrite E; apply in_or_app; right; now left).
    assert (Hd : c = dash \/ c = colon).
    { destruct a; simpl in Hc.
      - destruct Hc as [<-|Hc]; [now right | left; eapply in_repeat; eauto].
      - destruct Hc as [<-|Hc]; [now left | left; eapply in_repeat; eauto].
      - apply in_app_iff in Hc. destruct Hc as [Hc|[<-|[]]];
          [left; eapply in_repeat; eauto | now right]. }
    destruct Hd as [->| ->]; reflexivity.
Qed.

Lemma separatorMarker_length (a : alignment) (n : nat) :
  len (separatorMarker a n) = (Z.of_nat n + 1)%Z.
Proof.
  unfold len. destruct a; simpl; rewrite ?length_app, ?repeat_length; simpl; lia.
Qed.

Lemma trim_wrap_marker (a : alignment) (n : nat) :
  trim (wrap (separatorMarker a n)) = separatorMarker a n.
Proof.
  unfold wrap.
  change (space :: separatorMarker a n ++ [space])
    with ([space] ++ separatorMarker a n ++ [space]).
  apply trim_pad; [repeat constructor | repeat constructor |].
  apply separatorMarker_trimmed.
Qed.

Section Reformat.
Variables (markdown : str) (r : result).
Hypothesis Hvalid : validTable markdown.
Hypothesis Hcols : 1 <= colCountOf (cleanedRowsOf (linesOf markdown)).
Hypothesis Hfmt : formatMarkdownTable markdown = Normal r.

Local Notation rows := (cleanedRowsOf (linesOf markdown)).
Local Notation rows' := (cleanedRowsOf (linesOf (returned r))).

(** A header or data row is parsed back as it was. *)
Lemma reparse_data_row (i : nat) (row : list str) :
  i <> 1 -> nth_error rows i = Some row -> nth_error rows' i = Some row.
Proof.
  intros Hne Hrow.
  destruct (reparse_rows markdown r Hvalid Hcols Hfmt) as [_ H].
  destruct (H i row Hrow) as (cells & Hcells & Hrow').
  rewrite Hrow'. f_equal.
  rewrite <- (map_id row).
  apply (mapi_from_map _ _ _ _ _ _ Hcells).
  intros k x y Hk Hy. simpl in Hy.
  unfold formatCell in Hy. destruct (Nat.eqb_spec i 1); [contradiction|].
  apply padCell_exact in Hy. destruct Hy as [_ ->].
  apply trim_wrap_padded.
  apply (cleaned_cell_trimmed (linesOf markdown) row);
    [eapply nth_error_In; eauto | eapply nth_error_In; eauto].
Qed.

(** The separator row is parsed back as the rebuilt markers. *)
Lemma reparse_separator_row :
  exists sepRow',
    nth_error rows' 1 = Some sepRow' /\
    length sepRow' = colCountOf rows /\
    forall j, j < colCountOf rows ->
      (1 <= nth j (colWidthsOf rows) 0)%Z /\
      nth_error sepRow' j
      = Some (separatorMarker (nth j (alignmentsOf rows) Left)
                              (Z.to_nat (nth j (colWidthsOf rows) 0%Z))).
Proof.
  pose proof Hvalid as [Hlen Hv].
  destruct (validTable_row markdown 1 Hvalid) as (sepRow & Hsep & Hl); [lia|].
  destruct (reparse_rows markdown r Hvalid Hcols Hfmt) as [_ H].
  destruct (H 1 sepRow Hsep) as (cells & Hcells & Hrow').
  exists (map (fun c => trim (wrap c)) cells).
  split; [exact Hrow'|]. split.
  - rewrite length_map. apply mapi_from_length in Hcells. lia.
  - intros j Hj.
    destruct (nth_error sepRow j) as [cell|] eqn:Hcell.
    2:{ apply nth_error_None in Hcell. lia. }
    destruct (mapi_from_nth _ _ _ _ Hcells _ _ Hcell) as (y & Hy & Hfy).
    simpl in Hfy. unfold formatCell in Hfy. simpl in Hfy.
    apply sepCell_exact in Hfy. destruct Hfy as [Hw ->].
    split; [exact Hw|].
    rewrite (map_nth_error _ _ _ Hy). f_equal. apply trim_wrap_marker.
Qed.

Lemma reparse_length : length rows' = length rows.
Proof. exact (proj1 (reparse_rows markdown r Hvalid Hcols Hfmt)). Qed.

(** Every row parsed from the returned string has as many cells as the
    rows of the input. *)
Lemma reparse_row_length (row' : list str) :
  In row' rows' -> length row' = colCountOf rows.
Proof.
  intros Hin. pose proof Hvalid as [Hlen Hv].
  apply In_nth_error in Hin. destruct Hin as (i & Hi).
  assert (Hlt : i < length rows).
  { rewrite <- reparse_length. apply nth_error_Some. congruence. }
  destruct (Nat.eq_dec i 1) as [->|Hne].
  - destruct reparse_separator_row as (sepRow' & Hs & Hl & _).
    rewrite Hs in Hi. inversion Hi; subst. exact Hl.
  - destruct (nth_error rows i) as [row|] eqn:Hrow.
    2:{ apply nth_error_None in Hrow. lia. }
    rewrite (reparse_data_row i row Hne Hrow) in Hi. inversion Hi; subst.
    apply (isValid_length _ _ Hv). eapply nth_error_In; eauto.
Qed.

Lemma reparse_colCount : colCountOf rows' = colCountOf rows.
Proof.
  pose proof Hvalid as [Hlen _].
  destruct (nth_error rows' 0) as [row0|] eqn:E.
  - unfold colCountOf at 1. rewrite (nth_error_nth _ _ [] E).
    apply reparse_row_length. eapply nth_error_In; eauto.
  - apply nth_error_None in E. rewrite reparse_length in E.
    rewrite cleanedRowsOf_length in E. lia.
Qed.

Lemma reparse_valid : validTable (returned r).
Proof.
  pose proof Hvalid as [Hlen _]. split.
  - rewrite <- cleanedRowsOf_length. rewrite reparse_length.
    now rewrite cleanedRowsOf_length.
  - unfold isValid. apply forallb_forall. intros row' Hin.
    apply Nat.eqb_eq. rewrite reparse_colCount. now apply reparse_row_length.
Qed.

End Reformat.

Lemma Math_max_unique (xs : list Z) (m : Z) :
  In m xs -> (forall x, In x xs -> (x <= m)%Z) -> Math_max xs = m.
Proof.
  intros Hin Hle.
  assert (Hne : xs <> []) by (intros ->; destruct Hin).
  pose proof (Math_max_in xs Hne) as H1. pose proof (Math_max_ge xs m Hin) as H2.
  specialize (Hle _ H1). lia.
Qed.

(** After one pass every column is one character wider. *)
Lemma reparse_width (markdown : str) (r : result) (col : nat) :
  validTable markdown ->
  1 <= colCountOf (cleanedRowsOf (linesOf markdown)) ->
  formatMarkdownTable markdown = Normal r ->
  col < colCountOf (cleanedRowsOf (linesOf markdown)) ->
  (1 <= nth col (colWidthsOf (cleanedRowsOf (linesOf markdown))) 0)%Z /\
  nth col (colWidthsOf (cleanedRowsOf (linesOf (returned r)))) 0%Z
  = (nth col (colWidthsOf (cleanedRowsOf (linesOf markdown))) 0 + 1)%Z.
Proof.
  intros Hvalid Hcols Hfmt Hcol. pose proof Hvalid as [Hlen Hv].
  set (rows := cleanedRowsOf (linesOf markdown)) in *.
  set (rows' := cleanedRowsOf (linesOf (returned r))).
  destruct (reparse_separator_row markdown r Hvalid Hcols Hfmt)
    as (sepRow' & Hs & Hl & Hmark).
  fold rows rows' in Hs, Hl, Hmark.
  destruct (Hmark col Hcol) as [Hw Hm]. split; [exact Hw|].
  set (w := nth col (colWidthsOf rows) 0%Z) in *.
  rewrite colWidth_nth
    by (unfold rows'; rewrite (reparse_colCount markdown r Hvalid Hcols Hfmt);
        exact Hcol).
  apply Math_max_unique.
  - apply in_map_iff. exists sepRow'. split; [|eapply nth_error_In; eauto].
    rewrite (nth_error_nth _ _ [] Hm), separatorMarker_length. lia.
  - intros x Hx. apply in_map_iff in Hx. destruct Hx as (row' & <- & Hin).
    apply In_nth_error in Hin. destruct Hin as (i & Hi).
    destruct (Nat.eq_dec i 1) as [->|Hne].
    + pose proof (eq_trans (eq_sym Hi) Hs) as E.
      assert (Er : row' = sepRow') by (injection E; auto). subst row'.
      rewrite (nth_error_nth _ _ [] Hm), separatorMarker_length. lia.
    + assert (Hlt : i < length rows).
      { pose proof (reparse_length markdown r Hvalid Hcols Hfmt) as L.
        assert (i < length (cleanedRowsOf (linesOf (returned r))))
          by (apply nth_error_Some; intros E0;
              pose proof (eq_trans (eq_sym Hi) E0) as E1; discriminate E1).
        unfold rows. lia. }
      destruct (nth_error rows i) as [row|] eqn:Hrow.
      2:{ apply nth_error_None in Hrow. lia. }
      pose proof (reparse_data_row markdown r Hvalid Hcols Hfmt i row Hne Hrow) as E.
      pose proof (eq_trans (eq_sym Hi) E) as E'.
      assert (Er : row' = row) by (injection E'; auto). subst row'.
      assert (Hin : In row rows) by (eapply nth_error_In; eauto).
      assert (Hc : nth_error row col = Some (nth col row [])).
      { apply nth_error_nth'. pose proof (isValid_length rows row Hv Hin) as L.
        unfold str in *. lia. }
      pose proof (colWidth_ge rows row col _ Hcol Hin Hc) as G.
      apply Z.le_trans with w; [exact G | lia].
Qed.

(** X5: when [formatMarkdownTable] returns on a valid table of at least one
    column, the returned string is again a valid table, with as many rows and
    columns, and its header and data rows parse to the cells of the input;
    only the separator row differs. *)
Theorem format_output_reparses (markdown : str) (r : result) :
  validTable markdown ->
  1 <= colCountOf (cleanedRowsOf (linesOf markdown)) ->
  formatMarkdownTable markdown = Normal r ->
  validTable (returned r) /\
  length (cleanedRowsOf (linesOf (returned r)))
  = length (cleanedRowsOf (linesOf markdown)) /\
  colCountOf (cleanedRowsOf (linesOf (returned r)))
  = colCountOf (cleanedRowsOf (linesOf markdown)) /\
  forall i, i <> 1 ->
    nth_error (cleanedRowsOf (linesOf (returned r))) i
    = nth_error (cleanedRowsOf (linesOf markdown)) i.
Proof.
  intros Hvalid Hcols Hfmt.
  split; [exact (reparse_valid markdown r Hvalid Hcols Hfmt)|].
  split; [exact (reparse_length markdown r Hvalid Hcols Hfmt)|].
  split; [exact (reparse_colCount markdown r Hvalid Hcols Hfmt)|].
  intros i Hne.
  destruct (nth_error (cleanedRowsOf (linesOf markdown)) i) as [row|] eqn:Hrow.
  - exact (reparse_data_row markdown r Hvalid Hcols Hfmt i row Hne Hrow).
  - apply nth_error_None. apply nth_error_None in Hrow.
    rewrite (reparse_length markdown r Hvalid Hcols Hfmt). exact Hrow.
Qed.

(** X6: formatting the returned string again never throws, and makes every
    column exactly one character wider than the first pass found it. *)
Theorem reformat_widens_columns (markdown : str) (r : result) :
  validTable markdown ->
  1 <= colCountOf (cleanedRowsOf (linesOf markdown)) ->
  formatMarkdownTable markdown = Normal r ->
  colWidthsOf (cleanedRowsOf (linesOf (returned r)))
  = map (fun w => (w + 1)%Z) (colWidthsOf (cleanedRowsOf (linesOf markdown))) /\
  exists r2, formatMarkdownTable (returned r) = Normal r2 /\ console r2 = [].
Proof.
  intros Hvalid Hcols Hfmt.
  pose proof (reparse_colCount markdown r Hvalid Hcols Hfmt) as Hcc.
  split.
  - apply (nth_ext _ _ 0%Z 0%Z).
    + unfold colWidthsOf. rewrite !length_map, !length_seq. exact Hcc.
    + intros col Hcol.
      unfold colWidthsOf in Hcol at 1. rewrite length_map, length_seq, Hcc in Hcol.
      destruct (reparse_width markdown r col Hvalid Hcols Hfmt Hcol) as [_ ->].
      change 0%Z with ((fun w => (w + 1)%Z) (-1)%Z) at 2.
      rewrite map_nth. f_equal.
      apply nth_indep. unfold colWidthsOf. now rewrite length_map, length_seq.
  - destruct (format_returns (returned r)) as (F & HF).
    + exact (reparse_valid markdown r Hvalid Hcols Hfmt).
    + intros col Hcol. rewrite Hcc in Hcol.
      destruct (reparse_width markdown r col Hvalid Hcols Hfmt Hcol) as [Hw ->].
      lia.
    + eexists. split; [exact HF | reflexivity].
Qed.

Lemma alignmentOf_marker (a : alignment) (n : nat) :
  1 <= n -> alignmentOf (separatorMarker a n) = reinferred a.
Proof.
  intros Hn. destruct (alignmentOf_spec (separatorMarker a n)) as (_ & HL & HR & HD).
  assert (Hdash : forall k, ~ In colon (repeat dash k)).
  { intros k H. apply in_repeat in H. discriminate. }
  destruct a; simpl reinferred.
  - apply HL.
    + intros (m & _ & E). simpl in E. inversion E as [E'].
      apply (Hdash n). rewrite E'. apply in_or_app. right. now left.
    + exists n. auto.
  - apply HD.
    + intros (m & _ & E). discriminate.
    + intros (m & _ & E). discriminate.
    + intros (m & _ & E). apply (Hdash (S n)). unfold separatorMarker in E.
      rewrite E. apply in_or_app. right. now left.
  - destruct n as [|n]; [lia|]. apply HR.
    + intros (m & _ & E). discriminate.
    + intros (m & _ & E). discriminate.
    + exists (S n). split; [lia | reflexivity].
Qed.

(** X7: when [formatMarkdownTable] returns on a valid table of at least one
    column, the alignments inferred from the returned string are those of
    the input, except that a centered column has become left-aligned. *)
Theorem reformat_alignments (markdown : str) (r : result) :
  validTable markdown ->
  1 <= colCountOf (cleanedRowsOf (linesOf markdown)) ->
  formatMarkdownTable markdown = Normal r ->
  alignmentsOf (cleanedRowsOf (linesOf (returned r)))
  = map reinferred (alignmentsOf (cleanedRowsOf (linesOf markdown))).
Proof.
  intros Hvalid Hcols Hfmt. pose proof Hvalid as [Hlen _].
  destruct (reparse_separator_row markdown r Hvalid Hcols Hfmt)
    as (sepRow' & Hs & Hl & Hmark).
  destruct (validTable_row markdown 1 Hvalid) as (sepRow & Hsep & Hl1); [lia|].
  assert (Hal : length (alignmentsOf (cleanedRowsOf (linesOf markdown)))
                = colCountOf (cleanedRowsOf (linesOf markdown))).
  { unfold alignmentsOf. rewrite (nth_error_nth _ _ [] Hsep), length_map. exact Hl1. }
  unfold alignmentsOf at 1. rewrite (nth_error_nth _ _ [] Hs).
  apply (nth_ext _ _ Left Left).
  - rewrite !length_map. lia.
  - intros j Hj. rewrite length_map, Hl in Hj.
    destruct (Hmark j Hj) as [Hw Hm].
    rewrite (nth_error_nth _ _ Left (map_nth_error alignmentOf _ _ Hm)).
    rewrite alignmentOf_marker by lia.
    exact (eq_sym (map_nth reinferred _ Left j)).
Qed.

Lemma format_output_reparses_witness :
  validTable smallTableFormatted /\
  length (cleanedRowsOf (linesOf smallTableFormatted))
  = length (cleanedRowsOf (linesOf smallTable)) /\
  colCountOf (cleanedRowsOf (linesOf smallTableFormatted))
  = colCountOf (cleanedRowsOf (linesOf smallTable)) /\
  forall i, i <> 1 ->
    nth_error (cleanedRowsOf (linesOf smallTableFormatted)) i
    = nth_error (cleanedRowsOf (linesOf smallTable)) i.
Proof.
  apply (format_output_reparses smallTable (mkResult smallTableFormatted [])).
  - split; [vm_compute; lia | reflexivity].
  - vm_compute. lia.
  - reflexivity.
Defined.

Lemma reformat_widens_columns_witness :
  colWidthsOf (cleanedRowsOf (linesOf smallTableFormatted))
  = map (fun w => (w + 1)%Z) (colWidthsOf (cleanedRowsOf (linesOf smallTable))) /\
  exists r2, formatMarkdownTable smallTableFormatted = Normal r2 /\ console r2 = [].
Proof.
  apply (reformat_widens_columns smallTable (mkResult smallTableFormatted [])).
  - split; [vm_compute; lia | reflexivity].
  - vm_compute. lia.
  - reflexivity.
Defined.

Lemma reformat_alignments_witness :
  alignmentsOf (cleanedRowsOf (linesOf smallTableFormatted))
  = map reinferred (alignmentsOf (cleanedRowsOf (linesOf smallTable))).
Proof.
  apply (reformat_alignments smallTable (mkResult smallTableFormatted [])).
  - split; [vm_compute; lia | reflexivity].
  - vm_compute. lia.
  - reflexivity.
Defined.

Lemma row_tail_length (cells : list str) :
  cells <> [] ->
  len (space :: join [space; pipe; space] cells ++ [space; pipe])
  = sumZ (map (fun c => (len c + 3)%Z) cells).
Proof.
  induction cells as [|c cells IH]; [congruence|]. intros _.
  destruct cells as [|c' cells].
  - unfold len. simpl. rewrite length_app. simpl. lia.
  - rewrite join_cons by discriminate.
    specialize (IH ltac:(discriminate)).
    replace (space :: (c ++ [space; pipe; space] ++
                       join [space; pipe; space] (c' :: cells)) ++ [space; pipe])
      with ((space :: c ++ [space; pipe]) ++
            (space :: join [space; pipe; space] (c' :: cells) ++ [space; pipe]))
      by (simpl; rewrite <- !app_assoc; reflexivity).
    assert (L : forall a b : str, len (a ++ b) = (len a + len b)%Z)
      by (intros a b; unfold len; rewrite length_app; lia).
    rewrite L, IH.
    cbn [map sumZ fold_right]. f_equal.
    unfold len. simpl length. rewrite length_app. simpl length. lia.
Qed.

Lemma row_line_length (cells : list str) :
  cells <> [] ->
  len (lit "| " ++ join (lit " | ") cells ++ lit " |")
  = (1 + sumZ (map (fun c => (len c + 3)%Z) cells))%Z.
Proof.
  intros Hne. rewrite <- (row_tail_length cells Hne). unfold len.
  change (lit "| " ++ join (lit " | ") cells ++ lit " |")
    with (pipe :: space :: join [space; pipe; space] cells ++ [space; pipe]).
  simpl length. lia.
Qed.

Lemma sumZ_shift (d : Z) (l : list Z) :
  sumZ (map (fun w => (w + d + 3)%Z) l)
  = (sumZ (map (fun w => (w + 3)%Z) l) + d * Z.of_nat (length l))%Z.
Proof. induction l as [|x l IH]; simpl; [lia | rewrite IH; lia]. Qed.

(** The lengths of the rendered cells of a row: the column widths, each
    one more in row 1. *)
Lemma rendered_cell_lengths (markdown : str) (i : nat) (row cells : list str) :
  validTable markdown ->
  nth_error (cleanedRowsOf (linesOf markdown)) i = Some row ->
  mapi (formatCell (alignmentsOf (cleanedRowsOf (linesOf markdown)))
                   (colWidthsOf (cleanedRowsOf (linesOf markdown))) i) row
  = Normal cells ->
  map len cells
  = map (fun w => (w + if Nat.eqb i 1 then 1 else 0)%Z)
        (colWidthsOf (cleanedRowsOf (linesOf markdown))).
Proof.
  intros [Hlen Hv] Hrow Hcells.
  assert (Hin : In row (cleanedRowsOf (linesOf markdown)))
    by (eapply nth_error_In; eauto).
  pose proof (isValid_length _ _ Hv Hin) as Lrow.
  pose proof (mapi_from_length _ _ _ _ Hcells) as Lcells.
  assert (Lcw : length (colWidthsOf (cleanedRowsOf (linesOf markdown)))
                = colCountOf (cleanedRowsOf (linesOf markdown)))
    by (unfold colWidthsOf; now rewrite length_map, length_seq).
  apply (nth_ext _ _ 0%Z 0%Z).
  - rewrite !length_map. unfold str in *. lia.
  - intros n Hn. rewrite length_map in Hn.
    destruct (nth_error row n) as [x|] eqn:Hx.
    2:{ apply nth_error_None in Hx. unfold str in *. lia. }
    destruct (mapi_from_nth _ _ _ _ Hcells _ _ Hx) as (y & Hy & Hfy).
    simpl in Hfy.
    rewrite (nth_error_nth _ _ 0%Z (map_nth_error len _ _ Hy)).
    assert (Hn' : n < length (colWidthsOf (cleanedRowsOf (linesOf markdown))))
      by (unfold str in *; lia).
    rewrite (nth_error_nth _ _ 0%Z
               (map_nth_error _ _ _ (nth_error_nth' _ 0%Z Hn'))).
    destruct (Nat.eqb_spec i 1) as [->|Hne].
    + apply formatCell_sep in Hfy. lia.
    + apply (formatCell_data _ _ _ _ _ _ Hne) in Hfy.
      destruct Hfy as (l & rr & _ & L). lia.
Qed.

(** X8: in the table returned for a valid input of at least one column,
    every header and data line has the same length, one plus, for each
    column, its width and three; the separator line is longer by the number
    of columns. *)
Theorem format_line_lengths (markdown : str) (r : result) (i : nat) (line : str) :
  validTable markdown ->
  1 <= colCountOf (cleanedRowsOf (linesOf markdown)) ->
  formatMarkdownTable markdown = Normal r ->
  nth_error (split nl (returned r)) i = Some line ->
  len line
  = (1 + sumZ (map (fun w => (w + 3)%Z)
                   (colWidthsOf (cleanedRowsOf (linesOf markdown))))
     + if Nat.eqb i 1
       then Z.of_nat (colCountOf (cleanedRowsOf (linesOf markdown)))
       else 0)%Z.
Proof.
  intros Hvalid Hcols Hfmt Hline. pose proof Hvalid as [Hlen Hv].
  destruct (format_valid_inv _ _ Hvalid Hfmt) as (F & HF & ->).
  simpl returned in Hline. rewrite (format_lines _ _ Hvalid HF) in Hline.
  assert (Hi : i < length (cleanedRowsOf (linesOf markdown))).
  { rewrite <- (mapi_from_length _ _ _ _ HF). apply nth_error_Some. congruence. }
  destruct (nth_error (cleanedRowsOf (linesOf markdown)) i) as [row|] eqn:Hrow.
  2:{ apply nth_error_None in Hrow. lia. }
  destruct (mapi_from_nth _ _ _ _ HF _ _ Hrow) as (line' & Hline' & Hf).
  rewrite Hline in Hline'. inversion Hline'; subst line'. clear Hline'.
  simpl in Hf. apply formatRow_inv in Hf. destruct Hf as (cells & Hcells & ->).
  assert (Hin : In row (cleanedRowsOf (linesOf markdown)))
    by (eapply nth_error_In; eauto).
  assert (Hne : cells <> []).
  { pose proof (mapi_from_length _ _ _ _ Hcells) as L.
    pose proof (isValid_length _ _ Hv Hin) as L'.
    intros ->. simpl in L. unfold str in *. lia. }
  rewrite (row_line_length cells Hne).
  rewrite <- (map_map len (fun w => (w + 3)%Z)).
  rewrite (rendered_cell_lengths markdown i row cells Hvalid Hrow Hcells).
  rewrite map_map.
  assert (Lcw : length (colWidthsOf (cleanedRowsOf (linesOf markdown)))
                = colCountOf (cleanedRowsOf (linesOf markdown)))
    by (unfold colWidthsOf; now rewrite length_map, length_seq).
  rewrite (sumZ_shift (if Nat.eqb i 1 then 1 else 0)), Lcw.
  destruct (Nat.eqb i 1); lia.
Qed.

Lemma format_line_lengths_witness :
  len (lit "| ---- | ---: |")
  = (1 + sumZ (map (fun w => (w + 3)%Z)
                   (colWidthsOf (cleanedRowsOf (linesOf smallTable))))
     + if Nat.eqb 1 1
       then Z.of_nat (colCountOf (cleanedRowsOf (linesOf smallTable)))
       else 0)%Z.
Proof.
  apply (format_line_lengths smallTable (mkResult smallTableFormatted []) 1).
  - split; [vm_compute; lia | reflexivity].
  - vm_compute. lia.
  - reflexivity.
  - reflexivity.
Defined.

(* ================================================================== *)
(** ** The row parser *)

Lemma join_snoc (sep : str) (l : list str) (x : str) :
  l <> [] -> join sep (l ++ [x]) = join sep l ++ sep ++ x.
Proof.
  induction l as [|y l IH]; [congruence|]. intros _.
  destruct l as [|z l]; [reflexivity|].
  change ((y :: z :: l) ++ [x]) with (y :: ((z :: l) ++ [x])).
  rewrite (join_cons sep y ((z :: l) ++ [x])) by discriminate.
  rewrite IH by discriminate.
  rewrite (join_cons sep y (z :: l)) by discriminate.
  now rewrite <- !app_assoc.
Qed.

Lemma map_trim_trimmed (cells : list str) :
  Forall trimmed cells -> map trim cells = cells.
Proof.
  induction 1 as [|c cells Hc _ IH]; simpl; [reflexivity|].
  now rewrite (trim_fix c Hc), IH.
Qed.

Lemma join_pipe_trimmed (cells : list str) :
  Forall trimmed cells -> hd [] cells <> [] -> last cells [] <> [] ->
  trimmed (join [pipe] cells).
Proof.
  intros HF Hhd Hlast. rewrite Forall_forall in HF. apply trimmed_ends.
  - intros c rest E. destruct cells as [|[|x c1] cells]; simpl in Hhd;
      try congruence.
    assert (Hx : isWhiteSpace x = false).
    { assert (Ht : trimmed (x :: c1)) by (apply HF; now left).
      destruct Ht as [Ht _]. now apply trimStart_fix in Ht. }
    destruct cells; simpl in E; inversion E; subst; exact Hx.
  - intros c init E.
    destruct (exists_last (l := cells)) as (front & lastc & ->).
    { intros ->. simpl in Hlast. congruence. }
    rewrite last_last in Hlast.
    destruct (exists_last Hlast) as (m & y & ->).
    assert (Hy : isWhiteSpace y = false).
    { assert (Ht : trimmed (m ++ [y]))
        by (apply HF; apply in_or_app; right; now left).
      destruct Ht as [_ Ht]. rewrite rev_app_distr in Ht.
      change (rev [y] ++ rev m) with (y :: rev m) in Ht.
      now apply trimStart_fix in Ht. }
    destruct front as [|f front].
    + simpl in E. apply app_inj_tail in E. destruct E as [_ <-]. exact Hy.
    + rewrite join_snoc in E by discriminate.
      rewrite !app_assoc in E. apply app_inj_tail in E.
      destruct E as [_ <-]. exact Hy.
Qed.

Lemma popEmpty_keep (row : list str) :
  last row [] <> [] -> popEmpty row = row.
Proof.
  intros H. destruct (exists_last (l := row)) as (front & x & ->).
  { intros ->. simpl in H. congruence. }
  rewrite last_last in H. rewrite popEmpty_snoc.
  destruct x; [congruence | reflexivity].
Qed.

(** X9: a line written with framing pipes parses to the trimmed pieces
    between its pipes; and a line written without them parses to the same
    cells, when its cells are trimmed and the first and the last are not
    empty. *)
Theorem row_styles_parse_alike (cells : list str) :
  cells <> [] ->
  Forall (fun c => ~ In pipe c) cells ->
  cleanRow (parseRow (pipe :: join [pipe] cells ++ [pipe])) = map trim cells /\
  (Forall trimmed cells -> hd [] cells <> [] -> last cells [] <> [] ->
   cleanRow (parseRow (join [pipe] cells)) = cells /\
   cleanRow (parseRow (pipe :: join [pipe] cells ++ [pipe])) = cells).
Proof.
  intros Hne HF.
  assert (Hpiped : cleanRow (parseRow (pipe :: join [pipe] cells ++ [pipe]))
                   = map trim cells).
  { unfold parseRow.
    rewrite trim_fix by (apply framed_trimmed; eexists; reflexivity).
    change (split pipe (pipe :: join [pipe] cells ++ [pipe]))
      with ([] :: split pipe (join [pipe] cells ++ [pipe])).
    replace (join [pipe] cells ++ [pipe]) with (join [pipe] (cells ++ [[]]))
      by (rewrite join_snoc by assumption; now rewrite app_nil_r).
    rewrite split_join.
    - simpl map. rewrite map_app. simpl map. change (trim []) with (@nil char).
      unfold cleanRow. simpl shiftEmpty. apply popEmpty_snoc.
    - destruct cells; discriminate.
    - apply Forall_app. split; [assumption | repeat constructor; auto]. }
  split; [exact Hpiped|]. intros Ht Hhd Hlast.
  split; [|now rewrite Hpiped, map_trim_trimmed].
  unfold parseRow.
  rewrite trim_fix by now apply join_pipe_trimmed.
  rewrite split_join by assumption.
  rewrite map_trim_trimmed by assumption.
  unfold cleanRow.
  replace (shiftEmpty cells) with cells
    by (destruct cells as [|[|? ?] ?]; simpl in *; congruence).
  now apply popEmpty_keep.
Qed.

Lemma row_styles_parse_alike_witness :
  cleanRow (parseRow (lit "| a |bb  |")) = [lit "a"; lit "bb"] /\
  cleanRow (parseRow (lit "a|bb")) = [lit "a"; lit "bb"] /\
  cleanRow (parseRow (lit "|a|bb|")) = [lit "a"; lit "bb"].
Proof.
  split.
  - apply (row_styles_parse_alike [lit " a "; lit "bb  "]).
    + discriminate.
    + repeat constructor; simpl; intuition discriminate.
  - apply (row_styles_parse_alike [lit "a"; lit "bb"]).
    + discriminate.
    + repeat constructor; simpl; intuition discriminate.
    + repeat constructor.
    + discriminate.
    + discriminate.
Defined.

(* ================================================================== *)
(** ** Formatting a generated table *)

Lemma lines_join (ls : list str) :
  ls <> [] -> concat (map (fun l => l ++ [nl]) ls) = join [nl] ls ++ [nl].
Proof.
  induction ls as [|x ls IH]; [congruence|]. intros _.
  destruct ls as [|y ls].
  - simpl. now rewrite app_nil_r.
  - change (concat (map (fun l => l ++ [nl]) (x :: y :: ls)))
      with ((x ++ [nl]) ++ concat (map (fun l => l ++ [nl]) (y :: ls))).
    rewrite IH by discriminate.
    rewrite (join_cons [nl] x (y :: ls)) by discriminate.
    now rewrite <- !app_assoc.
Qed.

Lemma rowOf_framed (seg : str) (cols : nat) :
  1 <= cols -> framed (rowOf seg cols).
Proof.
  intros H. destruct cols as [|n]; [lia|]. unfold rowOf.
  exists (concat (repeat (seg ++ [pipe]) n) ++ seg).
  f_equal. simpl. rewrite <- concat_repeat_comm. now rewrite <- !app_assoc.
Qed.

Lemma parse_rowOf (seg : str) (cols : nat) :
  1 <= cols -> ~ In pipe seg ->
  cleanRow (parseRow (rowOf seg cols)) = repeat (trim seg) cols.
Proof.
  intros Hc Hp. unfold parseRow.
  rewrite (trim_fix _ (framed_trimmed _ (rowOf_framed seg cols Hc))).
  unfold rowOf.
  change (split pipe (pipe :: concat (repeat (seg ++ [pipe]) cols)))
    with ([] :: split pipe (concat (repeat (seg ++ [pipe]) cols))).
  rewrite split_rowOf_tail by assumption.
  simpl map. rewrite map_app, map_repeat. simpl map.
  change (trim []) with (@nil char).
  unfold cleanRow. simpl shiftEmpty. apply popEmpty_snoc.
Qed.

Lemma alignCharOf_requested (keyword : arg) :
  trim (space :: alignCharOf keyword ++ [space]) = alignCharOf keyword /\
  (4 <= len (alignCharOf keyword))%Z /\
  alignmentOf (alignCharOf keyword) = requestedAlignment keyword.
Proof.
  unfold alignCharOf, requestedAlignment.
  destruct (str_eqb _ (lit "left"));
    [split; [reflexivity | split; [vm_compute; discriminate | reflexivity]]|].
  destruct (str_eqb _ (lit "right"));
    (split; [reflexivity | split; [vm_compute; discriminate | reflexivity]]).
Qed.

(** The lines and the grid the formatter reads in a generated table. *)
Lemma generated_grid (rows cols alignment : arg) :
  linesOf (generateMarkdownTable rows cols alignment)
  = rowOf [space] (Z.to_nat (normalizeCount cols))
    :: rowOf (space :: alignCharOf alignment ++ [space])
             (Z.to_nat (normalizeCount cols))
    :: repeat (rowOf [space] (Z.to_nat (normalizeCount cols)))
              (Z.to_nat (normalizeCount rows - 1)) /\
  cleanedRowsOf (linesOf (generateMarkdownTable rows cols alignment))
  = repeat [] (Z.to_nat (normalizeCount cols))
    :: repeat (alignCharOf alignment) (Z.to_nat (normalizeCount cols))
    :: repeat (repeat [] (Z.to_nat (normalizeCount cols)))
              (Z.to_nat (normalizeCount rows - 1)).
Proof.
  assert (Hc : 1 <= Z.to_nat (normalizeCount cols))
    by (unfold normalizeCount; lia).
  set (c := Z.to_nat (normalizeCount cols)) in *.
  set (k := Z.to_nat (normalizeCount rows - 1)).
  destruct (markerSegment_clean alignment) as [Mp Mn].
  assert (Sp : ~ In pipe [space]) by (simpl; intuition discriminate).
  assert (Sn : ~ In nl [space]) by (simpl; intuition discriminate).
  set (gl := rowOf [space] c :: rowOf (space :: alignCharOf alignment ++ [space]) c
             :: repeat (rowOf [space] c) k).
  assert (Hfr : Forall framed gl).
  { repeat constructor; try now apply rowOf_framed.
    apply Forall_forall. intros l Hl. apply repeat_spec in Hl. subst l.
    now apply rowOf_framed. }
  assert (Hnl : Forall (fun l => ~ In nl l) gl).
  { repeat constructor; try now apply rowOf_no_nl.
    apply Forall_forall. intros l Hl. apply repeat_spec in Hl. subst l.
    now apply rowOf_no_nl. }
  assert (Hlines : linesOf (generateMarkdownTable rows cols alignment) = gl).
  { unfold linesOf. rewrite generate_lines. fold c k gl.
    rewrite lines_join by discriminate.
    replace (trim (join [nl] gl ++ [nl])) with (join [nl] gl).
    - apply split_join; [discriminate | assumption].
    - symmetry. apply (trim_pad [] (join [nl] gl) [nl]);
        [constructor | repeat constructor |].
      apply framed_trimmed, join_framed; [discriminate | assumption]. }
  split; [exact Hlines|]. rewrite Hlines. unfold gl, cleanedRowsOf.
  simpl map. rewrite !map_repeat.
  rewrite !parse_rowOf by assumption.
  destruct (alignCharOf_requested alignment) as (-> & _).
  reflexivity.
Qed.

(** What the formatter reads in a generated table, and that it returns on
    it. *)
Lemma generated_table_facts (rows cols alignment : arg) :
  validTable (generateMarkdownTable rows cols alignment) /\
  Z.of_nat (length (cleanedRowsOf
                      (linesOf (generateMarkdownTable rows cols alignment))))
  = (normalizeCount rows + 1)%Z /\
  Z.of_nat (colCountOf (cleanedRowsOf
                          (linesOf (generateMarkdownTable rows cols alignment))))
  = normalizeCount cols /\
  alignmentsOf (cleanedRowsOf
                  (linesOf (generateMarkdownTable rows cols alignment)))
  = repeat (requestedAlignment alignment) (Z.to_nat (normalizeCount cols)) /\
  exists out,
    formatMarkdownTable (generateMarkdownTable rows cols alignment)
    = Normal (mkResult out []).
Proof.
  destruct (generated_grid rows cols alignment) as [Hlines Hgrid].
  assert (Hc : (1 <= normalizeCount cols)%Z) by (unfold normalizeCount; lia).
  assert (Hr : (1 <= normalizeCount rows)%Z) by (unfold normalizeCount; lia).
  set (table := generateMarkdownTable rows cols alignment) in *.
  set (c := Z.to_nat (normalizeCount cols)) in *.
  set (k := Z.to_nat (normalizeCount rows - 1)) in *.
  assert (Hcc : colCountOf (cleanedRowsOf (linesOf table)) = c).
  { rewrite Hgrid. unfold colCountOf. simpl. apply repeat_length. }
  assert (Hvalid : validTable table).
  { split.
    - rewrite Hlines. simpl. lia.
    - unfold isValid. rewrite Hcc, Hgrid. simpl.
      rewrite !repeat_length, Nat.eqb_refl. simpl.
      apply forallb_forall. intros row Hrow. apply repeat_spec in Hrow.
      subst row. rewrite repeat_length. apply Nat.eqb_refl. }
  split; [exact Hvalid|]. split.
  { rewrite Hgrid. simpl length. rewrite repeat_length. unfold k. lia. }
  split; [rewrite Hcc; unfold c; lia|]. split.
  { rewrite Hgrid. unfold alignmentsOf. simpl nth. rewrite map_repeat.
    now destruct (alignCharOf_requested alignment) as (_ & _ & ->). }
  destruct (format_returns table Hvalid) as (F & HF); [|eauto].
  intros col Hcol. rewrite Hcc in Hcol.
  destruct (alignCharOf_requested alignment) as (_ & Hlen & _).
  assert (G : (len (alignCharOf alignment)
               <= nth col (colWidthsOf (cleanedRowsOf (linesOf table))) 0)%Z).
  { apply (colWidth_ge _ (repeat (alignCharOf alignment) c)).
    - now rewrite Hcc.
    - rewrite Hgrid. right. now left.
    - rewrite nth_error_repeat by assumption. reflexivity. }
  lia.
Qed.

(** X10: whatever the arguments, the table [generateMarkdownTable] returns
    is a valid table for [formatMarkdownTable], read with the row and column
    counts the generator used and, in every column, the alignment the
    keyword asked for; [formatMarkdownTable] returns on it and logs
    nothing. *)
Theorem generated_table_formats (rows cols alignment : arg) :
  validTable (generateMarkdownTable rows cols alignment) /\
  Z.of_nat (length (cleanedRowsOf
                      (linesOf (generateMarkdownTable rows cols alignment))))
  = (normalizeCount rows + 1)%Z /\
  Z.of_nat (colCountOf (cleanedRowsOf
                          (linesOf (generateMarkdownTable rows cols alignment))))
  = normalizeCount cols /\
  alignmentsOf (cleanedRowsOf
                  (linesOf (generateMarkdownTable rows cols alignment)))
  = repeat (requestedAlignment alignment) (Z.to_nat (normalizeCount cols)) /\
  exists out,
    formatMarkdownTable (generateMarkdownTable rows cols alignment)
    = Normal (mkResult out []).
Proof. exact (generated_table_facts rows cols alignment). Qed.

(* ================================================================== *)
(** ** Counts typed as numerals *)

Lemma parseInt_skip_white (ws s : str) :
  allWhite ws -> parseInt (ws ++ s) = parseInt s.
Proof.
  intros H. unfold parseInt. now rewrite (trimStart_white_app ws s H).
Qed.

Lemma decimal_fold_nonneg (s : str) :
  Forall (fun c => (48 <= c <= 57)%N) s ->
  forall a, (0 <= a)%Z ->
  (0 <= fold_left (fun a c => (a * 10 + (Z.of_N c - 48))%Z) s a)%Z.
Proof.
  induction 1 as [|c s Hc _ IH]; intros a Ha; simpl; [assumption|].
  apply IH. lia.
Qed.

(** X11: a row or column count typed as a decimal numeral of value below
    2^53 (the numbers [parseInt] returns exactly), after any white space, is
    that number, except that 0 gives the default 2; with a minus sign in
    front the count is 1, except that -0 gives 2. *)
Theorem count_of_numeral (ws s : str) :
  allWhite ws -> isDecimal s -> (decimalValue s < 2 ^ 53)%Z ->
  normalizeCount (Some (ws ++ s))
  = (if (decimalValue s =? 0)%Z then 2 else decimalValue s)%Z /\
  normalizeCount (Some (ws ++ 45%N :: s))
  = (if (decimalValue s =? 0)%Z then 2 else 1)%Z.
Proof.
  intros Hws Hd _.
  assert (Hpos : (0 <= decimalValue s)%Z)
    by (apply decimal_fold_nonneg; [apply Hd | lia]).
  unfold normalizeCount, parseIntArg.
  rewrite !parseInt_skip_white by assumption.
  rewrite (parseInt_decimal s Hd), (parseInt_minus_decimal s Hd).
  destruct (decimalValue s) as [|p|p]; simpl; lia.
Qed.

Lemma count_of_numeral_witness :
  normalizeCount (Some (lit " 12"))
  = (if (decimalValue (lit "12") =? 0)%Z then 2 else decimalValue (lit "12"))%Z /\
  normalizeCount (Some (lit " -12"))
  = (if (decimalValue (lit "12") =? 0)%Z then 2 else 1)%Z.
Proof.
  apply (count_of_numeral (lit " ") (lit "12")).
  - repeat constructor.
  - split; [discriminate | repeat constructor; vm_compute; discriminate].
  - vm_compute. reflexivity.
Defined.

(* ================================================================== *)
(** ** The commands *)

Lemma pick_app {A} (f : call -> option A) (t1 t2 : list call) :
  pick f (t1 ++ t2) = pick f t1 ++ pick f t2.
Proof.
  induction t1 as [|c t1 IH]; simpl; [reflexivity|].
  destruct (f c); simpl; now rewrite IH.
Qed.

Lemma run_logAll {A} (h : host) (msgs : list str) (rest : prog A) :
  run h (logAll msgs rest)
  = (map (fun m => Call (ConsoleLog m) (h _ (ConsoleLog m))) msgs
     ++ fst (run h rest),
     snd (run h rest)).
Proof.
  induction msgs as [|m msgs IH]; simpl.
  - now destruct (run h rest).
  - rewrite IH. reflexivity.
Qed.

Lemma pick_logs {A} (f : call -> option A) (h : host) (msgs : list str) :
  (forall m x, f (Call (ConsoleLog m) x) = None) ->
  pick f (map (fun m => Call (ConsoleLog m) (h _ (ConsoleLog m))) msgs) = [].
Proof.
  intros H. induction msgs as [|m msgs IH]; simpl; [reflexivity|].
  now rewrite H.
Qed.

Lemma logs_of_logs (h : host) (msgs : list str) :
  logsOf (map (fun m => Call (ConsoleLog m) (h _ (ConsoleLog m))) msgs) = msgs.
Proof.
  induction msgs as [|m msgs IH]; simpl; [reflexivity|].
  unfold logsOf in *. simpl. now rewrite IH.
Qed.

(** What the host sees when [format_table_command] runs on a non-empty
    selection on which [formatMarkdownTable] returns. *)
Lemma run_format_command (h : host) (e : editor) (text : str) (r : result) :
  h _ ActiveTextEditor = Some e ->
  h _ (GetSelectedText e) = text ->
  text <> [] ->
  formatMarkdownTable text = Normal r ->
  editsOf (fst (run h format_table_command)) = [Replaced e (returned r)] /\
  logsOf (fst (run h format_table_command)) = console r /\
  messagesOf (fst (run h format_table_command))
  = [if h _ (EditReplaceSelection e (returned r))
     then lit "Formatted." else lit "Format failed"] /\
  snd (run h format_table_command) = Normal tt.
Proof.
  intros Hed Htext Hne Hfmt.
  unfold format_table_command. cbn [run]. rewrite Hed. cbn [run]. rewrite Htext.
  destruct text as [|c text]; [congruence|].
  rewrite Hfmt, run_logAll. cbn [run fst snd].
  unfold editsOf, logsOf, messagesOf.
  destruct (h bool (EditReplaceSelection e (returned r))); cbn [run fst snd];
    cbn [pick editOf logOf messageOf]; rewrite !pick_app;
    rewrite (pick_logs editOf), (pick_logs messageOf) by reflexivity;
    fold (logsOf (map (fun m => Call (ConsoleLog m) (h _ (ConsoleLog m))) (console r)));
    rewrite logs_of_logs; cbn [pick editOf logOf messageOf app];
    rewrite ?app_nil_r; auto.
Qed.

Lemma run_format_command_throw (h : host) (e : editor) (text : str) (x : exn) :
  h _ ActiveTextEditor = Some e ->
  h _ (GetSelectedText e) = text ->
  formatMarkdownTable text = Throw x ->
  run h format_table_command
  = ([Call ActiveTextEditor (Some e); Call (GetSelectedText e) text], Throw x).
Proof.
  intros Hed Htext Hfmt.
  unfold format_table_command. cbn [run]. rewrite Hed. cbn [run]. rewrite Htext.
  destruct text as [|c text]; [discriminate Hfmt|].
  rewrite Hfmt. reflexivity.
Qed.

Lemma inconsistent_returns_input (markdown : str) :
  (exists row, In row (cleanedRowsOf (linesOf markdown)) /\
               length row <> colCountOf (cleanedRowsOf (linesOf markdown))) ->
  markdown <> [] /\
  formatMarkdownTable markdown = Normal (mkResult markdown [diagnostic]).
Proof.
  intros (row & Hin & Hne).
  assert (Hfmt : formatMarkdownTable markdown
                 = Normal (mkResult markdown [diagnostic])).
  { unfold formatMarkdownTable.
    destruct (Nat.ltb_spec (length (linesOf markdown)) 2) as [Hlt|Hge].
    - exfalso. apply Hne.
      pose proof (split_length_pos nl (trim markdown)) as Hpos.
      fold (linesOf markdown) in Hpos.
      destruct (linesOf markdown) as [|l [|l' ls]]; simpl in *; try lia.
      destruct Hin as [<-|[]]. reflexivity.
    - destruct (isValid (cleanedRowsOf (linesOf markdown))) eqn:Hv; simpl.
      + exfalso. apply Hne. now apply isValid_length.
      + reflexivity. }
  split; [|exact Hfmt]. intros ->. discriminate Hfmt.
Qed.

Lemma empty_column_width (markdown : str) (col : nat) :
  validTable markdown ->
  col < colCountOf (cleanedRowsOf (linesOf markdown)) ->
  (forall row cell,
      In row (cleanedRowsOf (linesOf markdown)) ->
      nth_error row col = Some cell -> cell = []) ->
  nth col (colWidthsOf (cleanedRowsOf (linesOf markdown))) 0%Z = 0%Z.
Proof.
  intros [Hlen Hv] Hcol Hempty.
  rewrite colWidth_nth by assumption.
  assert (Hne : map (fun row => len (nth col row []))
                    (cleanedRowsOf (linesOf markdown)) <> []).
  { intros E. apply map_eq_nil in E.
    assert (L : length (cleanedRowsOf (linesOf markdown)) = 0) by now rewrite E.
    rewrite cleanedRowsOf_length in L. lia. }
  apply Math_max_in in Hne. apply in_map_iff in Hne.
  destruct Hne as (row & Hrow & Hin). rewrite <- Hrow.
  assert (Hc : nth_error row col = Some (nth col row [])).
  { apply nth_error_nth'.
    pose proof (isValid_length _ row Hv Hin) as L. unfold str in *. lia. }
  rewrite (Hempty row _ Hin Hc). reflexivity.
Qed.

(** X12: when the selected text has a row whose cell count differs from
    row 0's, [format_table_command] logs the diagnostic, replaces the
    selection by the very same text, and then tells the user "Formatted." if
    the editor applied the edit and "Format failed" if it did not. *)
Theorem format_command_on_inconsistent_selection
    (h : host) (e : editor) (text : str) :
  h _ ActiveTextEditor = Some e ->
  h _ (GetSelectedText e) = text ->
  (exists row, In row (cleanedRowsOf (linesOf text)) /\
               length row <> colCountOf (cleanedRowsOf (linesOf text))) ->
  editsOf (fst (run h format_table_command)) = [Replaced e text] /\
  logsOf (fst (run h format_table_command)) = [diagnostic] /\
  messagesOf (fst (run h format_table_command))
  = [if h _ (EditReplaceSelection e text)
     then lit "Formatted." else lit "Format failed"] /\
  snd (run h format_table_command) = Normal tt.
Proof.
  intros Hed Htext Hrow.
  destruct (inconsistent_returns_input text Hrow) as [Hne Hfmt].
  exact (run_format_command h e text _ Hed Htext Hne Hfmt).
Qed.

(** X13: when the selected text is a valid table with a column of empty
    cells only, [format_table_command] ends with the RangeError right after
    reading the selection: the document is not edited, nothing is logged and
    no message is shown. *)
Theorem format_command_throws_before_editing
    (h : host) (e : editor) (text : str) (col : nat) :
  h _ ActiveTextEditor = Some e ->
  h _ (GetSelectedText e) = text ->
  validTable text ->
  col < colCountOf (cleanedRowsOf (linesOf text)) ->
  (forall row cell,
      In row (cleanedRowsOf (linesOf text)) ->
      nth_error row col = Some cell -> cell = []) ->
  run h format_table_command
  = ([Call ActiveTextEditor (Some e); Call (GetSelectedText e) text],
     Throw RangeError).
Proof.
  intros Hed Htext Hvalid Hcol Hempty.
  apply run_format_command_throw; [assumption | assumption|].
  apply (format_throws text col Hvalid Hcol).
  now apply empty_column_width.
Qed.

(** X14: with an active editor, [generate_table_command] opens the three
    input boxes in the order rows, columns, alignment, shows no message, and
    makes one edit: it inserts the table generated from the three answers.
    That table is a valid table on which [formatMarkdownTable] returns
    without a diagnostic.  With no editor it opens no box and edits
    nothing. *)
Theorem generate_command_inserts_table (h : host) :
  match h _ ActiveTextEditor with
  | Some e =>
      let table :=
        generateMarkdownTable
          (h _ (ShowInputBox (lit "row number") (lit "2")))
          (h _ (ShowInputBox (lit "column number") (lit "2")))
          (h _ (ShowInputBox (lit "alignment: l r c") (lit "c"))) in
      promptsOf (fst (run h generate_table_command))
      = [lit "row number"; lit "column number"; lit "alignment: l r c"] /\
      editsOf (fst (run h generate_table_command)) = [Inserted e table] /\
      messagesOf (fst (run h generate_table_command)) = [] /\
      snd (run h generate_table_command) = Normal tt /\
      validTable table /\
      exists out, formatMarkdownTable table = Normal (mkResult out [])
  | None =>
      promptsOf (fst (run h generate_table_command)) = [] /\
      editsOf (fst (run h generate_table_command)) = [] /\
      messagesOf (fst (run h generate_table_command)) = [lit "No editor"] /\
      snd (run h generate_table_command) = Normal tt
  end.
Proof.
  unfold generate_table_command. cbn [run].
  destruct (h (option editor) ActiveTextEditor) as [e|]; cbn [run fst snd].
  - repeat (split; [reflexivity|]).
    destruct (generated_table_facts
                (h _ (ShowInputBox (lit "row number") (lit "2")))
                (h _ (ShowInputBox (lit "column number") (lit "2")))
                (h _ (ShowInputBox (lit "alignment: l r c") (lit "c"))))
      as (Hv & _ & _ & _ & Hout).
    split; assumption.
  - repeat split.
Qed.

Lemma format_command_on_inconsistent_selection_witness :
  editsOf (fst (run (hostWith inconsistentExample true) format_table_command))
  = [Replaced 0 inconsistentExample] /\
  logsOf (fst (run (hostWith inconsistentExample true) format_table_command))
  = [diagnostic] /\
  messagesOf (fst (run (hostWith inconsistentExample true) format_table_command))
  = [if hostWith inconsistentExample true _
          (EditReplaceSelection 0 inconsistentExample)
     then lit "Formatted." else lit "Format failed"] /\
  snd (run (hostWith inconsistentExample true) format_table_command) = Normal tt.
Proof.
  apply (format_command_on_inconsistent_selection
           (hostWith inconsistentExample true) 0 inconsistentExample).
  - reflexivity.
  - reflexivity.
  - exists [lit "---"]. split; [vm_compute; auto | vm_compute; lia].
Defined.

Lemma format_command_throws_before_editing_witness :
  run (hostWith emptySecondColumn true) format_table_command
  = ([Call ActiveTextEditor (Some 0);
      Call (GetSelectedText 0) emptySecondColumn],
     Throw RangeError).
Proof.
  apply (format_command_throws_before_editing
           (hostWith emptySecondColumn true) 0 emptySecondColumn 1).
  - reflexivity.
  - reflexivity.
  - split; [vm_compute; lia | reflexivity].
  - vm_compute. lia.
  - intros row cell Hin Hcell. vm_compute in Hin.
    destruct Hin as [<-|[<-|[<-|[]]]]; vm_compute in Hcell;
      inversion Hcell; reflexivity.
Defined.

(** X15: the string returned for a valid table begins and ends with a
    pipe, as does each of its lines, so it carries no white space or line
    break at either end; nothing is logged. *)
Theorem format_output_framed (markdown : str) (r : result) :
  validTable markdown ->
  formatMarkdownTable markdown = Normal r ->
  framed (returned r) /\ trim (returned r) = returned r /\
  Forall framed (split nl (returned r)) /\ console r = [].
Proof.
  intros Hvalid Hfmt. pose proof Hvalid as [Hlen _].
  destruct (format_valid_inv _ _ Hvalid Hfmt) as (F & HF & ->).
  simpl returned. simpl console.
  pose proof (format_rows_framed markdown F HF) as HFr.
  assert (Hfr : framed (join [nl] F)).
  { apply join_framed; [|assumption].
    apply mapi_from_length in HF. rewrite cleanedRowsOf_length in HF.
    intros ->. simpl in HF. lia. }
  split; [exact Hfr|]. split; [apply trim_fix, framed_trimmed, Hfr|].
  split; [|reflexivity].
  now rewrite (format_lines markdown F Hvalid HF).
Qed.

Lemma format_output_framed_witness :
  framed smallTableFormatted /\ trim smallTableFormatted = smallTableFormatted /\
  Forall framed (split nl smallTableFormatted) /\ @nil str = [].
Proof.
  apply (format_output_framed smallTable (mkResult smallTableFormatted [])).
  - split; [vm_compute; lia | reflexivity].
  - reflexivity.
Defined.

Lemma format_empty_rows (alignments : list alignment) (colWidths : list Z)
      (rows : list (list str)) :
  Forall (fun row => row = []) rows ->
  forall i, mapi_from i (formatRow alignments colWidths) rows
            = Normal (repeat (lit "|  |") (length rows)).
Proof.
  induction 1 as [|row rows -> _ IH]; intros i; simpl; [reflexivity|].
  rewrite IH. reflexivity.
Qed.

(** X16: a valid table whose rows have no cell at all is returned as one
    line [|  |] per row; that string reads as a table of one empty column,
    and formatting it throws the RangeError. *)
Theorem reformat_of_empty_grid_throws (markdown : str) :
  validTable markdown ->
  colCountOf (cleanedRowsOf (linesOf markdown)) = 0 ->
  formatMarkdownTable markdown
  = Normal (mkResult
              (join [nl] (repeat (lit "|  |") (length (linesOf markdown)))) []) /\
  formatMarkdownTable
    (join [nl] (repeat (lit "|  |") (length (linesOf markdown))))
  = Throw RangeError.
Proof.
  intros Hvalid Hzero. pose proof Hvalid as [Hlen Hv].
  set (n := length (linesOf markdown)) in *.
  assert (Hrows : Forall (fun row => row = []) (cleanedRowsOf (linesOf markdown))).
  { apply Forall_forall. intros row Hin.
    pose proof (isValid_length _ row Hv Hin) as L. rewrite Hzero in L.
    destruct row; [reflexivity | discriminate L]. }
  assert (HF : mapi (formatRow (alignmentsOf (cleanedRowsOf (linesOf markdown)))
                               (colWidthsOf (cleanedRowsOf (linesOf markdown))))
                    (cleanedRowsOf (linesOf markdown))
               = Normal (repeat (lit "|  |") n)).
  { unfold mapi. rewrite (format_empty_rows _ _ _ Hrows).
    now rewrite cleanedRowsOf_length. }
  assert (Hfmt : formatMarkdownTable markdown
                 = Normal (mkResult (join [nl] (repeat (lit "|  |") n)) [])).
  { unfold formatMarkdownTable. fold n.
    destruct (Nat.ltb_spec n 2); [lia|].
    rewrite Hv. simpl negb. cbv iota. rewrite HF. reflexivity. }
  split; [exact Hfmt|].
  set (out := join [nl] (repeat (lit "|  |") n)) in *.
  assert (Hlines : linesOf out = repeat (lit "|  |") n)
    by exact (format_output_lines markdown _ Hvalid HF).
  assert (Hgrid : cleanedRowsOf (linesOf out) = repeat [[]] n).
  { rewrite Hlines. unfold cleanedRowsOf. rewrite !map_repeat. reflexivity. }
  assert (Hn : n = S (S (n - 2))) by lia.
  assert (Hcc : colCountOf (cleanedRowsOf (linesOf out)) = 1).
  { rewrite Hgrid, Hn. reflexivity. }
  assert (Hvalid' : validTable out).
  { split.
    - rewrite Hlines, repeat_length. exact Hlen.
    - unfold isValid. rewrite Hcc, Hgrid. apply forallb_forall.
      intros row Hrow. apply repeat_spec in Hrow. now subst row. }
  apply (format_throws out 0 Hvalid'); [rewrite Hcc; lia|].
  apply (empty_column_width out 0 Hvalid'); [rewrite Hcc; lia|].
  intros row cell Hin Hcell. rewrite Hgrid in Hin.
  apply repeat_spec in Hin. subst row. now inversion Hcell.
Qed.

Lemma reformat_of_empty_grid_throws_witness :
  formatMarkdownTable (lit "|
|")
  = Normal (mkResult
              (join [nl] (repeat (lit "|  |") (length (linesOf (lit "|
|"))))) []) /\
  formatMarkdownTable
    (join [nl] (repeat (lit "|  |") (length (linesOf (lit "|
|")))))
  = Throw RangeError.
Proof.
  apply (reformat_of_empty_grid_throws (lit "|
|")).
  - split; [vm_compute; lia | reflexivity].
  - reflexivity.
Defined.

(* ================================================================== *)
(** ** Carriage returns *)

Lemma trim_decompose (s : str) :
  exists w1 w2, allWhite w1 /\ allWhite w2 /\ s = w1 ++ trim s ++ w2.
Proof.
  destruct (trimStart_suffix s) as (p & Hp & Hwp).
  destruct (trimStart_suffix (rev (trimStart s))) as (q & Hq & Hwq).
  exists p, (rev q). split; [assumption|]. split; [now apply allWhite_rev|].
  unfold trim, trimEnd. rewrite <- rev_app_distr, <- Hq, rev_involutive.
  exact Hp.
Qed.

Lemma trim_white_end (s w : str) : allWhite w -> trim (s ++ w) = trim s.
Proof.
  intros Hw. destruct (trim_decompose s) as (w1 & w2 & H1 & H2 & E).
  rewrite E at 1. rewrite <- !app_assoc.
  apply trim_pad; [assumption | now apply Forall_app | apply trim_trimmed].
Qed.

Lemma toCRLF_app (a b : str) : toCRLF (a ++ b) = toCRLF a ++ toCRLF b.
Proof. apply flat_map_app. Qed.

Lemma toCRLF_white (w : str) : allWhite w -> allWhite (toCRLF w).
Proof.
  induction 1 as [|c w Hc _ IH]; simpl; [constructor|].
  apply Forall_app. split; [|exact IH].
  destruct (c =? nl)%N; repeat constructor. exact Hc.
Qed.

Lemma not_white_not_nl (c : char) : isWhiteSpace c = false -> (c =? nl)%N = false.
Proof.
  intros H. destruct (N.eqb_spec c nl) as [->|]; [discriminate H | reflexivity].
Qed.

Lemma toCRLF_trimmed (t : str) : trimmed t -> trimmed (toCRLF t).
Proof.
  intros [Hs He]. apply trimmed_ends.
  - intros c rest E. apply trimStart_fix in Hs.
    destruct t as [|x t]; [discriminate E|].
    simpl in E. rewrite (not_white_not_nl x Hs) in E.
    inversion E; subst. exact Hs.
  - intros c init E. apply trimStart_fix in He.
    destruct (rev t) as [|d r] eqn:Er.
    + assert (t = []) by (rewrite <- (rev_involutive t), Er; reflexivity).
      subst t. destruct init; discriminate E.
    + assert (Et : t = rev r ++ [d])
        by (rewrite <- (rev_involutive t), Er; reflexivity).
      rewrite Et, toCRLF_app in E. simpl in E.
      rewrite (not_white_not_nl d He) in E. simpl in E.
      apply app_inj_tail in E. destruct E as [_ <-]. exact He.
Qed.

Lemma trim_toCRLF (s : str) : trim (toCRLF s) = toCRLF (trim s).
Proof.
  destruct (trim_decompose s) as (w1 & w2 & H1 & H2 & E).
  rewrite E at 1. rewrite !toCRLF_app.
  apply trim_pad; [now apply toCRLF_white | now apply toCRLF_white |].
  apply toCRLF_trimmed, trim_trimmed.
Qed.

Lemma split_toCRLF (t : str) : split nl (toCRLF t) = crLines (split nl t).
Proof.
  induction t as [|c t IH]; [reflexivity|].
  change (toCRLF (c :: t))
    with ((if (c =? nl)%N then [13%N; nl] else [c]) ++ toCRLF t).
  pose proof (split_not_nil nl t) as Hne.
  simpl split at 2. destruct (N.eqb_spec c nl) as [->|Hc].
  - change (split nl ([13%N; nl] ++ toCRLF t))
      with (match [] :: split nl (toCRLF t) with
            | [] => [[13%N]]
            | w :: ws => (13%N :: w) :: ws
            end).
    rewrite IH. destruct (split nl t); [congruence | reflexivity].
  - simpl app. simpl split. destruct (N.eqb_spec c nl); [contradiction|].
    rewrite IH. destruct (split nl t) as [|w0 [|w1 ws0]]; [congruence| |];
      reflexivity.
Qed.

Lemma parseRow_cr (line : str) : parseRow (line ++ [13%N]) = parseRow line.
Proof.
  unfold parseRow. rewrite trim_white_end; [reflexivity | repeat constructor].
Qed.

Lemma cleaned_crLines (l : list str) :
  cleanedRowsOf (crLines l) = cleanedRowsOf l.
Proof.
  unfold cleanedRowsOf. f_equal.
  induction l as [|x l IH]; [reflexivity|].
  destruct l as [|y l]; [reflexivity|].
  change (map parseRow (crLines (x :: y :: l)))
    with (parseRow (x ++ [13%N]) :: map parseRow (crLines (y :: l))).
  rewrite IH, parseRow_cr. reflexivity.
Qed.

(** The result on an input of at least two lines depends on the parsed
    grid only, when the grid is valid. *)
Lemma format_depends_on_grid (a b : str) :
  validTable a ->
  cleanedRowsOf (linesOf b) = cleanedRowsOf (linesOf a) ->
  formatMarkdownTable b = formatMarkdownTable a.
Proof.
  intros [Hlen Hv] E.
  assert (L : length (linesOf b) = length (linesOf a))
    by (rewrite <- !cleanedRowsOf_length; now rewrite E).
  unfold formatMarkdownTable. rewrite L, E.
  destruct (Nat.ltb_spec (length (linesOf a)) 2); [lia|].
  rewrite Hv. reflexivity.
Qed.

(** X17: carriage returns before the line breaks do not change the result
    on a valid table: the input with every line break written as carriage
    return and line feed gives the same returned string, whose lines are
    separated by line feeds alone. *)
Theorem format_ignores_carriage_returns (markdown : str) :
  validTable markdown ->
  formatMarkdownTable (toCRLF markdown) = formatMarkdownTable markdown.
Proof.
  intros Hvalid. apply format_depends_on_grid; [assumption|].
  unfold linesOf. rewrite trim_toCRLF, split_toCRLF. apply cleaned_crLines.
Qed.

Lemma format_ignores_carriage_returns_witness :
  formatMarkdownTable (toCRLF smallTable) = formatMarkdownTable smallTable.
Proof.
  apply (format_ignores_carriage_returns smallTable).
  split; [vm_compute; lia | reflexivity].
Defined.

Lemma trim_surrounded (w1 s w2 : str) :
  allWhite w1 -> allWhite w2 -> trim (w1 ++ s ++ w2) = trim s.
Proof.
  intros H1 H2. destruct (trim_decompose s) as (a & b & Ha & Hb & E).
  rewrite E at 1.
  replace (w1 ++ (a ++ trim s ++ b) ++ w2)
    with ((w1 ++ a) ++ trim s ++ (b ++ w2))
    by now rewrite <- !app_assoc.
  apply trim_pad; [now apply Forall_app | now apply Forall_app | apply trim_trimmed].
Qed.

(** X18: white space and line breaks around a valid table do not change the
    result: the returned string is the one the table alone gives, so the
    surrounding white space of the input is not in it. *)
Theorem format_ignores_surrounding_space (w1 markdown w2 : str) :
  validTable markdown -> allWhite w1 -> allWhite w2 ->
  formatMarkdownTable (w1 ++ markdown ++ w2) = formatMarkdownTable markdown.
Proof.
  intros Hvalid H1 H2. apply format_depends_on_grid; [assumption|].
  unfold linesOf. now rewrite trim_surrounded.
Qed.

Lemma format_ignores_surrounding_space_witness :
  formatMarkdownTable (lit "  " ++ smallTable ++ [nl])
  = formatMarkdownTable smallTable.
Proof.
  apply (format_ignores_surrounding_space (lit "  ") smallTable [nl]).
  - split; [vm_compute; lia | reflexivity].
  - repeat constructor.
  - repeat constructor.
Defined.
